(** * The IPFS resolve handler of the stargz snapshotter

    A shallow embedding of [cmd/containerd-stargz-grpc/ipfs/resolvehandler.go]:
    [ResolveHandler.Handle], [fetcher.Fetch], [fetcher.Check] and
    [fetcher.GenID], together with the parts of the Go standard library the
    file calls ([io.Pipe], [io.CopyN], [os/exec], [strconv.ParseInt],
    [crypto/sha256], [fmt]), modelled as the library documents them. *)

From Stdlib Require Import ZArith List Bool Lia.
From Stdlib.Strings Require Import String Ascii Byte.
From Stdlib Require Import DecimalString.
From Stdlib Require Decimal DecimalPos DecimalZ.
Import ListNotations.
Local Open Scope string_scope.
Local Open Scope list_scope.
Local Open Scope Z_scope.

(** ** Machine integers *)

(** Go's [int64]: a [Z] kept in [-2^63, 2^63) by wrapping. *)
Definition min_int64 : Z := - 2 ^ 63.
Definition max_int64 : Z := 2 ^ 63 - 1.

Definition wrap64 (z : Z) : Z := (z + 2 ^ 63) mod 2 ^ 64 - 2 ^ 63.

Definition is_int64 (z : Z) : Prop := min_int64 <= z <= max_int64.

(** [len(b)] as a Go integer. *)
Definition len {A : Type} (l : list A) : Z := Z.of_nat (List.length l).

(** ** Errors *)

(** The [Err] field of a [*strconv.NumError]. *)
Inductive NumErr : Type :=
| ErrSyntax
| ErrRange.

(** Go's [error] values, as far as this file can see them: the sentinels of
    package [io], the errors of [strconv] and [fmt.Errorf], and whatever
    [os/exec] reports (an exit status or an operating system error). *)
Inductive error : Type :=
| EOF
| ErrClosedPipe
| NumError (Func Num : string) (Err : NumErr)
| Errorf (msg : string)
| ExitError (code : Z)
| SysError (msg : string).

(** ** Strings, bytes and [fmt] *)

(** [string(b)] and [[]byte(s)]. *)
Definition string_of_bytes (b : list byte) : string := string_of_list_byte b.
Definition bytes_of_string (s : string) : list byte := list_byte_of_string s.

(** The verb [%d] on an integer. *)
Definition fmt_d (z : Z) : string := NilZero.string_of_int (Z.to_int z).

Definition hex_digit (n : N) : ascii :=
  if (n <? 10)%N then ascii_of_N (48 + n) else ascii_of_N (87 + n).

(** The verb [%x] on one byte: two lower-case hexadecimal digits. *)
Definition fmt_x_byte (b : byte) : string :=
  let n := Byte.to_N b in
  String (hex_digit (n / 16)) (String (hex_digit (n mod 16)) EmptyString).

(** The verb [%x] on a byte array. *)
Fixpoint fmt_x (bs : list byte) : string :=
  match bs with
  | [] => EmptyString
  | b :: bs' => (fmt_x_byte b ++ fmt_x bs')%string
  end.

(** [strings.HasPrefix]. *)
Fixpoint HasPrefix (s p : string) : bool :=
  match p, s with
  | EmptyString, _ => true
  | String _ _, EmptyString => false
  | String b p', String a s' => Ascii.eqb a b && HasPrefix s' p'
  end.

(** [strings.Contains]. *)
Fixpoint Contains (s substr : string) : bool :=
  HasPrefix s substr ||
  match s with
  | EmptyString => false
  | String _ s' => Contains s' substr
  end.

(** [strings.HasSuffix] and [strings.TrimSuffix]. *)
Definition HasSuffix (s suffix : string) : bool :=
  (String.length suffix <=? String.length s)%nat &&
  String.eqb
    (substring (String.length s - String.length suffix)
               (String.length suffix) s)
    suffix.

Definition TrimSuffix (s suffix : string) : string :=
  if HasSuffix s suffix
  then substring 0 (String.length s - String.length suffix) s
  else s.

Definition newline : string := String (ascii_of_nat 10) EmptyString.

(** ** [strconv.ParseInt(s, 10, 64)] *)

Definition digit_val (c : ascii) : option Z :=
  let n := Z.of_N (N_of_ascii c) in
  if (48 <=? n) && (n <=? 57) then Some (n - 48) else None.

(** The digit loop of [strconv.ParseUint] in base 10 with 64 bits.  A
    character that is not a decimal digit is a syntax error; a value that
    leaves [uint64] is a range error, reported at once. *)
Fixpoint parse_digits (s : string) (n : Z) : NumErr + Z :=
  match s with
  | EmptyString => inr n
  | String c s' =>
      match digit_val c with
      | None => inl ErrSyntax
      | Some d =>
          if 2 ^ 64 / 10 + 1 <=? n then inl ErrRange
          else
            let n1 := n * 10 + d in
            if 2 ^ 64 - 1 <? n1 then inl ErrRange
            else parse_digits s' n1
      end
  end.

Definition ParseUint (s : string) : NumErr + Z :=
  match s with
  | EmptyString => inl ErrSyntax
  | _ => parse_digits s 0
  end.

(** [strconv.ParseInt(s, 10, 64)]: an optional sign, then [ParseUint]; the
    magnitude is checked against [1 << 63]. *)
Definition ParseInt (s0 : string) : error + Z :=
  match s0 with
  | EmptyString => inl (NumError "ParseInt" s0 ErrSyntax)
  | String c rest =>
      let neg := Ascii.eqb c "-" in
      let s := if Ascii.eqb c "+" || neg then rest else s0 in
      match ParseUint s with
      | inl ErrSyntax => inl (NumError "ParseInt" s0 ErrSyntax)
      | inl ErrRange => inl (NumError "ParseInt" s0 ErrRange)
      | inr un =>
          let cutoff := 2 ^ 63 in
          if negb neg && (cutoff <=? un) then
            inl (NumError "ParseInt" s0 ErrRange)
          else if neg && (cutoff <? un) then
            inl (NumError "ParseInt" s0 ErrRange)
          else inr (if neg then - un else un)
      end
  end.

(** ** [crypto/sha256] *)

(** [sha256.Sum256], as FIPS 180-4 defines the function: 32-bit words are
    [Z] reduced modulo [2^32]. *)
Module SHA256.

Definition w32 (x : Z) : Z := x mod 2 ^ 32.

Definition rotr (n x : Z) : Z :=
  Z.lor (Z.shiftr x n) (w32 (Z.shiftl x (32 - n))).

Definition Ch (x y z : Z) : Z :=
  Z.lxor (Z.land x y) (Z.land (w32 (Z.lnot x)) z).

Definition Maj (x y z : Z) : Z :=
  Z.lxor (Z.lxor (Z.land x y) (Z.land x z)) (Z.land y z).

Definition Sigma0 (x : Z) : Z :=
  Z.lxor (Z.lxor (rotr 2 x) (rotr 13 x)) (rotr 22 x).
Definition Sigma1 (x : Z) : Z :=
  Z.lxor (Z.lxor (rotr 6 x) (rotr 11 x)) (rotr 25 x).
Definition sigma0 (x : Z) : Z :=
  Z.lxor (Z.lxor (rotr 7 x) (rotr 18 x)) (Z.shiftr x 3).
Definition sigma1 (x : Z) : Z :=
  Z.lxor (Z.lxor (rotr 17 x) (rotr 19 x)) (Z.shiftr x 10).

(** Primality by trial division. *)
Definition is_prime (p : Z) : bool :=
  (2 <=? p) &&
  forallb (fun d => negb (p mod d =? 0))
          (map Z.of_nat (seq 2 (Z.to_nat p - 2))).

(** The prime numbers below [n], in order. *)
Definition primes_below (n : nat) : list Z :=
  filter is_prime (map Z.of_nat (seq 0 n)).

(** The integer cube root of [n], built from bit [bits - 1] down. *)
Fixpoint cube_root (bits : nat) (acc n : Z) : Z :=
  match bits with
  | O => acc
  | S b =>
      let t := acc + 2 ^ Z.of_nat b in
      if t * t * t <=? n then cube_root b t n else cube_root b acc n
  end.

(** The round constants: the first 32 bits of the fractional parts of the
    cube roots of the first 64 primes. *)
Definition K : list Z :=
  Eval vm_compute in
    map (fun p => w32 (cube_root 36 0 (p * 2 ^ 96))) (primes_below 312).

(** The eight working variables, also the chaining value. *)
Record digest : Type := mkDigest {
  h0 : Z; h1 : Z; h2 : Z; h3 : Z; h4 : Z; h5 : Z; h6 : Z; h7 : Z
}.

(** The initial value: the first 32 bits of the fractional parts of the
    square roots of the first 8 primes. *)
Definition init : digest :=
  Eval vm_compute in
    match map (fun p => w32 (Z.sqrt (p * 2 ^ 64))) (primes_below 20) with
    | [a; b; c; d; e; f; g; h] => mkDigest a b c d e f g h
    | _ => mkDigest 0 0 0 0 0 0 0 0
    end.

Definition round (s : digest) (kw : Z * Z) : digest :=
  let '(k, w) := kw in
  let t1 := w32 (h7 s + Sigma1 (h4 s) + Ch (h4 s) (h5 s) (h6 s) + k + w) in
  let t2 := w32 (Sigma0 (h0 s) + Maj (h0 s) (h1 s) (h2 s)) in
  mkDigest (w32 (t1 + t2)) (h0 s) (h1 s) (h2 s)
           (w32 (h3 s + t1)) (h4 s) (h5 s) (h6 s).

(** The message schedule, most recent word first: [n] more words are added
    in front of [r]. *)
Fixpoint schedule (n : nat) (r : list Z) : list Z :=
  match n with
  | O => r
  | S n' =>
      let w := w32 (sigma1 (nth 1 r 0) + nth 6 r 0 +
                    sigma0 (nth 14 r 0) + nth 15 r 0) in
      schedule n' (w :: r)
  end.

(** Big-endian 32-bit words of a block of bytes. *)
Fixpoint words (bs : list Z) : list Z :=
  match bs with
  | a :: b :: c :: d :: bs' =>
      (((a * 256 + b) * 256 + c) * 256 + d) :: words bs'
  | _ => []
  end.

Definition block (s : digest) (bs : list Z) : digest :=
  let w := List.rev (schedule 48 (List.rev (words bs))) in
  let t := fold_left round (combine K w) s in
  mkDigest (w32 (h0 s + h0 t)) (w32 (h1 s + h1 t)) (w32 (h2 s + h2 t))
           (w32 (h3 s + h3 t)) (w32 (h4 s + h4 t)) (w32 (h5 s + h5 t))
           (w32 (h6 s + h6 t)) (w32 (h7 s + h7 t)).

(** [n] blocks of 64 bytes, one after the other. *)
Fixpoint blocks (n : nat) (s : digest) (bs : list Z) : digest :=
  match n with
  | O => s
  | S n' => blocks n' (block s (firstn 64 bs)) (skipn 64 bs)
  end.

Definition be_bytes (k : nat) (x : Z) : list Z :=
  map (fun i => Z.shiftr x (8 * Z.of_nat i) mod 256) (List.rev (seq 0 k)).

(** The message, a [0x80] byte, zeros up to 56 modulo 64, and the length in
    bits as 8 big-endian bytes. *)
Definition pad (m : list Z) : list Z :=
  let l := Z.of_nat (List.length m) in
  m ++ 0x80 :: repeat 0 (Z.to_nat ((55 - l) mod 64)) ++ be_bytes 8 (8 * l).

Definition byte_of_Z (x : Z) : byte := byte_of_ascii (ascii_of_N (Z.to_N x)).
Definition Z_of_byte (b : byte) : Z := Z.of_N (Byte.to_N b).

Definition bytes_of_digest (s : digest) : list byte :=
  map byte_of_Z
      (be_bytes 4 (h0 s) ++ be_bytes 4 (h1 s) ++ be_bytes 4 (h2 s) ++
       be_bytes 4 (h3 s) ++ be_bytes 4 (h4 s) ++ be_bytes 4 (h5 s) ++
       be_bytes 4 (h6 s) ++ be_bytes 4 (h7 s)).

Definition Sum256 (data : list byte) : list byte :=
  let p := pad (map Z_of_byte data) in
  bytes_of_digest (blocks (List.length p / 64) init p).

End SHA256.

(** ** [os/exec] and the world outside the program *)

(** An [*exec.Cmd] as [exec.Command] builds it. *)
Record Cmd : Type := mkCmd {
  Path : string;
  Args : list string
}.

Definition exec_Command (name : string) (arg : list string) : Cmd :=
  {| Path := name; Args := name :: arg |}.

(** What one external command does, as the program can observe it. *)
Record Outcome : Type := mkOutcome {
  pipe_error : option error;    (* the error of [cmd.StdoutPipe()] *)
  start_error : option error;   (* the error of [cmd.Start()] *)
  stdout : list byte;           (* the bytes written to standard output *)
  stdout_error : option error;  (* how reading standard output ends:
                                   [None] is a plain end of file *)
  stderr : list byte;           (* what the buffer of standard error holds
                                   when the program reads it; the program
                                   reads it before [cmd.Wait()], so this
                                   may be less than the process writes *)
  exit_error : option error     (* the error of [cmd.Wait()] *)
}.

(** One line of the debug log written through [log.G(ctx)]. *)
Record LogEntry : Type := mkLogEntry {
  lg_format : string;
  lg_error : error;
  lg_stderr : string;
  lg_cid : string;
  lg_off : Z;
  lg_size : Z;
  lg_n : Z;
  lg_i : Z;
  lg_maxretry : Z
}.

(** The state outside the program.  [oracle k c] is what the [k]-th command
    handed to [os/exec] does when that command is [c]; [issued] lists the
    commands handed to [os/exec] so far, oldest first; [slept] adds up the
    durations passed to [time.Sleep], in nanoseconds; [debug] is the debug
    log; [reaping] lists the commands (by position in [issued]) left to a
    background goroutine that drains their output and waits for them. *)
Record World : Type := mkWorld {
  oracle : nat -> Cmd -> Outcome;
  issued : list Cmd;
  slept : Z;
  debug : list LogEntry;
  reaping : list nat
}.

(** Computations that act on the world. *)
Definition M (A : Type) : Type := World -> A * World.

Definition ret {A : Type} (a : A) : M A := fun w => (a, w).

Definition bind {A B : Type} (c : M A) (k : A -> M B) : M B :=
  fun w => let (a, w') := c w in k a w'.

Declare Scope io_scope.
Delimit Scope io_scope with io.
Notation "x <- c ;; k" := (bind c (fun x => k))
  (at level 61, c at next level, right associativity) : io_scope.
Notation "c ;;; k" := (bind c (fun _ => k))
  (at level 61, right associativity) : io_scope.
Local Open Scope io_scope.

(** Hand a command to [os/exec]: the world records it and fixes what it
    does.  The result carries the position of the command in [issued]. *)
Definition exec (c : Cmd) : M (nat * Outcome) :=
  fun w =>
    let k := List.length (issued w) in
    ((k, oracle w k c),
     mkWorld (oracle w) (issued w ++ [c]) (slept w) (debug w) (reaping w)).

Definition time_Second : Z := 1000000000.

Definition time_Sleep (d : Z) : M unit :=
  fun w =>
    (tt, mkWorld (oracle w) (issued w) (slept w + d) (debug w) (reaping w)).

Definition log_Debugf (e : LogEntry) : M unit :=
  fun w =>
    (tt, mkWorld (oracle w) (issued w) (slept w) (debug w ++ [e]) (reaping w)).

(** [go func() { io.Copy(io.Discard, stdout); cmd.Wait() }()]. *)
Definition go_drain (k : nat) : M unit :=
  fun w =>
    (tt, mkWorld (oracle w) (issued w) (slept w) (debug w) (reaping w ++ [k])).

(** An [io.Reader] seen from its end: the bytes it yields and how it
    ends ([None] for [io.EOF]). *)
Record Reader : Type := mkReader {
  rd_data : list byte;
  rd_err : option error
}.

Definition cmd_StdoutPipe (o : Outcome) : error + Reader :=
  match pipe_error o with
  | Some e => inl e
  | None => inr {| rd_data := stdout o; rd_err := stdout_error o |}
  end.

Definition cmd_Start (o : Outcome) : option error := start_error o.

(** [cmd.Run()]: [Start], then [Wait]. *)
Definition cmd_Run (o : Outcome) : option error :=
  match start_error o with
  | Some e => Some e
  | None => exit_error o
  end.

(** [cmd.Output()]: [Run] with standard output collected. *)
Definition cmd_Output (o : Outcome) : list byte * option error :=
  match start_error o with
  | Some e => ([], Some e)
  | None => (stdout o, exit_error o)
  end.

(** ** [io.Pipe] and [io.CopyN] *)

(** A pipe together with the party that reads it.  [received] holds the
    bytes the read side has taken, in order.  [patience] is the reader:
    [None] reads until the write side is closed, [Some r] takes [r] more
    bytes and then closes the read side.  [werr] is the error stored by
    closing the write side ([None] while it is open). *)
Record Pipe : Type := mkPipe {
  received : list byte;
  patience : option nat;
  werr : option error
}.

Definition io_Pipe (reader : option nat) : Pipe :=
  {| received := []; patience := reader; werr := None |}.

(** [pw.Write(b)]: the bytes reach the reader until it closes its side. *)
Definition pw_Write (p : Pipe) (b : list byte) : Z * option error * Pipe :=
  match werr p with
  | Some _ => (0, Some ErrClosedPipe, p)
  | None =>
      match patience p with
      | None => (len b, None, mkPipe (received p ++ b) None None)
      | Some r =>
          if (List.length b <=? r)%nat then
            (len b, None,
             mkPipe (received p ++ b) (Some (r - List.length b)%nat) None)
          else
            (Z.of_nat r, Some ErrClosedPipe,
             mkPipe (received p ++ firstn r b) (Some O) None)
      end
  end.

(** [pw.CloseWithError(err)]: the first close wins, and a nil error is
    stored as [io.EOF]. *)
Definition pw_CloseWithError (p : Pipe) (err : option error) : Pipe :=
  match werr p with
  | Some _ => p
  | None =>
      mkPipe (received p) (patience p)
             (Some (match err with Some e => e | None => EOF end))
  end.

(** [pw.Close()] is [pw.CloseWithError(nil)]. *)
Definition pw_Close (p : Pipe) : Pipe := pw_CloseWithError p None.

(** [io.ReadAll(pr)] by a reader that never closes its side: every byte
    written, and the error that closed the pipe unless it is [io.EOF].
    [None] when the write side is never closed. *)
Definition io_ReadAll (p : Pipe) : option (list byte * option error) :=
  match werr p with
  | None => None
  | Some EOF => Some (received p, None)
  | Some e => Some (received p, Some e)
  end.

(** [io.LimitReader(r, n)]. *)
Definition io_LimitReader (r : Reader) (n : Z) : Reader :=
  if n <=? 0 then {| rd_data := []; rd_err := None |}
  else if n <=? len (rd_data r)
       then {| rd_data := firstn (Z.to_nat n) (rd_data r); rd_err := None |}
       else r.

(** [io.Copy(dst, src)] into a pipe: nothing is written when the source
    yields nothing; a write error stops the copy; [io.EOF] from the source
    is not an error. *)
Definition io_Copy (dst : Pipe) (src : Reader) : Z * option error * Pipe :=
  match rd_data src with
  | [] => (0, rd_err src, dst)
  | b =>
      let '(nw, ew, dst') := pw_Write dst b in
      match ew with
      | Some e => (nw, Some e, dst')
      | None => (nw, rd_err src, dst')
      end
  end.

(** [io.CopyN(dst, src, n)]. *)
Definition io_CopyN (dst : Pipe) (src : Reader) (n : Z)
  : Z * option error * Pipe :=
  let '(written, err, dst') := io_Copy dst (io_LimitReader src n) in
  if written =? n then (n, None, dst')
  else
    match err with
    | None => if written <? n then (written, Some EOF, dst')
              else (written, None, dst')
    | Some e => (written, Some e, dst')
    end.

(** ** The resolve handler *)

Record fetcher : Type := mkFetcher {
  cid : string;
  size : Z
}.

Section Resolver.

(** [ocispec.Descriptor], and [ipfs.GetCID] of the snapshotter's package
    [ipfs], which this file only calls. *)
Variable Descriptor : Type.
Variable GetCID : Descriptor -> error + string.

(** [ResolveHandler.Handle]. *)
Definition Handle (desc : Descriptor) : M (error + fetcher * Z) :=
  match GetCID desc with
  | inl err => ret (inl err)
  | inr cid =>
      ko <- exec (exec_Command "ipfs"
                    ["files"; "stat"; "--format=<size>";
                     ("/ipfs/" ++ cid)%string]) ;;
      match cmd_Output (snd ko) with
      | (_, Some err) => ret (inl err)
      | (sizeB, None) =>
          match ParseInt (TrimSuffix (string_of_bytes sizeB) newline) with
          | inl err => ret (inl err)
          | inr size => ret (inr ({| cid := cid; size := size |}, size))
          end
      end
  end.

End Resolver.

Definition maxretry : Z := 100.

Definition lock_marker : string := "someone else has the lock".

(** The command of one read attempt. *)
Definition cat_cmd (f : fetcher) (curoff sz : Z) : Cmd :=
  exec_Command "ipfs"
    ["cat"; ("--offset=" ++ fmt_d curoff)%string;
     ("--length=" ++ fmt_d sz)%string; cid f].

Definition retry_format : string :=
  "retrying copy %q(offset:%d,length:%d,actuallength:%d,retry:%d/%d)".
Definition fail_format : string :=
  "failed to copy %q(offset:%d,length:%d,actuallength:%d,retry:%d/%d)".

(** The body of the loop in [Fetch] (the function literal with the deferred
    drain).  It returns [cont], [err], and the values of [curoff] and of the
    pipe afterwards. *)
Definition attempt (f : fetcher) (off sz : Z) (i : Z) (curoff : Z)
  (pw : Pipe) : M (bool * option error * Z * Pipe) :=
  ko <- exec (cat_cmd f curoff sz) ;;
  let (k, o) := ko : nat * Outcome in
  match cmd_StdoutPipe o with
  | inl err => ret (false, Some err, curoff, pw)
  | inr stdout =>
      match cmd_Start o with
      | Some err => ret (false, Some err, curoff, pw)
      | None =>
          let '(n, err, pw') := io_CopyN pw stdout sz in
          r <- match err with
               | Some err =>
                   let sb := string_of_bytes (stderr o) in
                   if (i <? maxretry) && Contains sb lock_marker then
                     log_Debugf
                       (mkLogEntry retry_format err sb (cid f) off sz n i
                                   maxretry) ;;;
                     time_Sleep time_Second ;;;
                     ret (true, None, wrap64 (curoff + n), pw')
                   else
                     log_Debugf
                       (mkLogEntry fail_format err sb (cid f) off sz n i
                                   maxretry) ;;;
                     ret (false, Some err, curoff, pw')
               | None => ret (false, None, curoff, pw')
               end ;;
          go_drain k ;;;
          ret r
      end
  end.

(** The [for i := 0; ; i++] loop of the goroutine, from iteration [i] on,
    and the close that follows it.  With no [fuel] left the goroutine is
    still running and the pipe is still open. *)
Fixpoint loop (fuel : nat) (f : fetcher) (off sz : Z) (i : Z) (curoff : Z)
  (pw : Pipe) : M Pipe :=
  match fuel with
  | O => ret pw
  | S fuel' =>
      r <- attempt f off sz i curoff pw ;;
      let '(cont, err, curoff', pw') := r in
      match err with
      | Some e => ret (pw_CloseWithError pw' (Some e))
      | None =>
          if cont : bool then loop fuel' f off sz (i + 1) curoff' pw'
          else ret (pw_Close pw')
      end
  end.

(** [fetcher.Fetch].  [reader] is the party that reads the returned stream.
    The result stands for the stream once the goroutine has finished: it
    never runs the loop body more than [maxretry + 1] times. *)
Definition Fetch (f : fetcher) (off sz : Z) (reader : option nat)
  : M (error + Pipe) :=
  if size f <? off then
    ret (inl (Errorf
      ("offset is larger than the size of the blob " ++ fmt_d off ++
       "(offset) > " ++ fmt_d (size f) ++ "(blob size)")%string))
  else
    p <- loop (S (Z.to_nat maxretry)) f off sz 0 off (io_Pipe reader) ;;
    ret (inr p).

(** [fetcher.Check]. *)
Definition Check (f : fetcher) : M (option error) :=
  ko <- exec (exec_Command "ipfs"
                ["files"; "stat"; ("/ipfs/" ++ cid f)%string]) ;;
  ret (cmd_Run (snd ko)).

(** [fetcher.GenID]. *)
Definition GenID (f : fetcher) (off sz : Z) : string :=
  let sum :=
    SHA256.Sum256
      (bytes_of_string (cid f ++ "-" ++ fmt_d off ++ "-" ++ fmt_d sz)%string)
  in
  fmt_x sum.

(** ** The retry loop as a transition system *)

(** The state at the head of the loop: the counter [i], the cursor
    [curoff], the write side of the pipe and the world. *)
Record Head : Type := mkHead {
  hd_i : Z;
  hd_curoff : Z;
  hd_pw : Pipe;
  hd_world : World
}.

(** The head at which the goroutine of [Fetch] enters the loop. *)
Definition start (off : Z) (reader : option nat) (w : World) : Head :=
  mkHead 0 off (io_Pipe reader) w.

(** [retries f off sz h h']: from head [h] the loop comes back to its head
    at [h'] after zero or more attempts that all asked for a retry. *)
Inductive retries (f : fetcher) (off sz : Z) (h : Head) : Head -> Prop :=
| retries_here : retries f off sz h h
| retries_next (h1 : Head) (curoff' : Z) (pw' : Pipe) (w' : World) :
    retries f off sz h h1 ->
    attempt f off sz (hd_i h1) (hd_curoff h1) (hd_pw h1) (hd_world h1)
      = ((true, None, curoff', pw'), w') ->
    retries f off sz h (mkHead (hd_i h1 + 1) curoff' pw' w').

(** What the next command does in world [w] when it is the read at
    [curoff]. *)
Definition cat_outcome (f : fetcher) (sz : Z) (curoff : Z) (w : World)
  : Outcome :=
  oracle w (List.length (issued w)) (cat_cmd f curoff sz).

(** A command of the shape [ipfs cat --offset=<some offset> --length=sz cid]. *)
Definition is_cat_with_length (f : fetcher) (sz : Z) (c : Cmd) : Prop :=
  exists curoff : Z,
    Path c = "ipfs"
    /\ Args c = ["ipfs"; "cat"; ("--offset=" ++ fmt_d curoff)%string;
                 ("--length=" ++ fmt_d sz)%string; cid f].

(** ** The content store seen through [ipfs cat] *)

(** The bytes [off, off+n) of an object, as far as the object reaches. *)
Definition range (obj : list byte) (off n : Z) : list byte :=
  firstn (Z.to_nat n) (skipn (Z.to_nat off) obj).

(** A command that succeeds and prints [bs]. *)
Definition prints (bs : list byte) : Outcome :=
  mkOutcome None None bs None [] None.

(** A command that prints [bs], then dies and exits with status 1.  [seen]
    is what the program finds in the buffer of standard error when it reads
    it: all the process reports, part of it, or nothing, since the buffer
    is read while [os/exec] may still be copying into it. *)
Definition dies_after (bs : list byte) (seen : string) : Outcome :=
  mkOutcome None None bs None (bytes_of_string seen) (Some (ExitError 1)).

(** What the store reports on standard error while another process holds
    the lock of its repository, when all of it has reached the buffer. *)
Definition lock_message : string :=
  "Error: lock /root/.ipfs/repo.lock: someone else has the lock".

(** What is left of [s] after the prefix [p], if [s] starts with it. *)
Fixpoint strip_prefix (p s : string) : option string :=
  match p, s with
  | EmptyString, _ => Some s
  | String a p', String c s' =>
      if Ascii.eqb a c then strip_prefix p' s' else None
  | String _ _, EmptyString => None
  end.

(** The integer of an argument such as [--offset=12]. *)
Definition flag_value (flag arg : string) : option Z :=
  match strip_prefix flag arg with
  | Some digits => option_map Z.of_int (NilZero.int_of_string digits)
  | None => None
  end.

(** A store that holds [obj] under every CID and serves [ipfs cat] from it.
    [trouble k] tells whether the [k]-th command runs into trouble: after
    how many bytes of output, and what of its report on standard error the
    program finds in the buffer when it reads it.  Without trouble a read
    prints the range it was asked for. *)
Definition ipfs_cat (obj : list byte) (trouble : nat -> option (nat * string))
  (k : nat) (c : Cmd) : Outcome :=
  match flag_value "--offset=" (nth 2 (Args c) ""),
        flag_value "--length=" (nth 3 (Args c) "") with
  | Some off, Some n =>
      match trouble k with
      | Some (m, msg) => dies_after (firstn m (range obj off n)) msg
      | None => prints (range obj off n)
      end
  | _, _ => dies_after [] "Error: invalid arguments"
  end.

(** The world of such a store, in which nothing has happened yet. *)
Definition store (obj : list byte) (trouble : nat -> option (nat * string))
  : World :=
  mkWorld (ipfs_cat obj trouble) [] 0 [] [].

(** A world in which the [k]-th command behaves as the [k]-th entry of
    [script], and as [rest] from then on; nothing has happened in it yet. *)
Definition scripted (script : list Outcome) (rest : Outcome) : World :=
  mkWorld (fun k _ => nth k script rest) [] 0 [] [].

(** A ten-byte object, its bytes numbered from 0. *)
Definition sample_object : list byte :=
  map SHA256.byte_of_Z [0; 1; 2; 3; 4; 5; 6; 7; 8; 9].

Definition sample_fetcher : fetcher := {| cid := "bafy123"; size := 10 |}.

(** The lock is held during the first read, which has printed two bytes by
    then, and the program finds the whole report in the buffer; every later
    read runs undisturbed. *)
Definition world_locked_once : World :=
  store sample_object
        (fun k => match k with
                  | O => Some (2%nat, lock_message)
                  | _ => None
                  end).

(** The state in which [Fetch sample_fetcher 0 4] makes its second attempt
    in [world_locked_once]. *)
Definition resumed_pipe : Pipe := mkPipe (range sample_object 0 2) None None.

Definition resumed_world : World :=
  mkWorld (oracle world_locked_once) [cat_cmd sample_fetcher 0 4]
          time_Second
          [mkLogEntry retry_format EOF lock_message
                      "bafy123" 0 4 2 0 maxretry]
          [0%nat].

(** The lock is held during two reads in a row, which print two bytes and
    one byte; the program finds the whole report both times. *)
Definition world_locked_twice : World :=
  store sample_object
        (fun k => match k with
                  | O => Some (2%nat, lock_message)
                  | S O => Some (1%nat, lock_message)
                  | _ => None
                  end).

(** The lock is never released: every read fails at once, and the
    program finds the whole report each time. *)
Definition world_locked_forever : World :=
  store sample_object (fun _ => Some (O, lock_message)).

(** The store loses the object after two bytes of the first read. *)
Definition world_truncating : World :=
  store sample_object
        (fun k => match k with
                  | O => Some (2%nat,
                               "Error: block was not found locally (offline)")
                  | _ => None
                  end).

(** A four-byte object, read with the lock held once. *)
Definition short_object : list byte := map SHA256.byte_of_Z [0; 1; 2; 3].

Definition world_short_locked_once : World :=
  store short_object
        (fun k => match k with
                  | O => Some (2%nat, lock_message)
                  | _ => None
                  end).

(** An object of 1000 bytes, and its fetcher, in a store without
    trouble. *)
Definition large_object : list byte :=
  map (fun i => SHA256.byte_of_Z (Z.of_nat i mod 251)) (seq 0 1000).

Definition large_fetcher : fetcher := {| cid := "bafy123"; size := 1000 |}.

Definition world_untroubled : World := store large_object (fun _ => None).

(** The store refuses the lock three times before it prints anything,
    and the program finds the whole report each time. *)
Definition world_refused_thrice : World :=
  store sample_object
        (fun k => if (k <? 3)%nat then Some (O, lock_message) else None).

(** The store refuses the lock once before it prints anything, and the
    program reads the buffer of standard error before any of the report
    has reached it. *)
Definition world_refused_unseen : World :=
  store sample_object (fun k => if (k <? 1)%nat then Some (O, "") else None).

(** A store that answers the size query with [1000] and a newline. *)
Definition world_stat : World :=
  scripted [prints (bytes_of_string ("1000" ++ newline)%string)] (prints []).

(** A store in which the object is not reachable. *)
Definition world_unreachable : World :=
  scripted [] (dies_after [] "Error: merkledag: not found").

(** The command of the size query and of the existence query. *)
Definition stat_size_cmd (c : string) : Cmd :=
  exec_Command "ipfs"
    ["files"; "stat"; "--format=<size>"; ("/ipfs/" ++ c)%string].

Definition stat_cmd (c : string) : Cmd :=
  exec_Command "ipfs" ["files"; "stat"; ("/ipfs/" ++ c)%string].

(** The world after one more command [c] and nothing else. *)
Definition after_command (w : World) (c : Cmd) : World :=
  mkWorld (oracle w) (issued w ++ [c]) (slept w) (debug w) (reaping w).

(** The message of the error for an offset beyond the blob. *)
Definition range_error (f : fetcher) (off : Z) : error :=
  Errorf ("offset is larger than the size of the blob " ++ fmt_d off ++
          "(offset) > " ++ fmt_d (size f) ++ "(blob size)")%string.

(** The fetcher of [short_object], and the state in which
    [Fetch short_fetcher 0 4] makes its second attempt in
    [world_short_locked_once]. *)
Definition short_fetcher : fetcher := {| cid := "bafy123"; size := 4 |}.

Definition resumed_world_short : World :=
  mkWorld (oracle world_short_locked_once) [cat_cmd short_fetcher 0 4]
          time_Second
          [mkLogEntry retry_format EOF lock_message
                      "bafy123" 0 4 2 0 maxretry]
          [0%nat].

(** A decimal integer as [strconv.ParseInt] reads one in base 10: an
    optional sign, then one or more decimal digits. *)
Fixpoint all_digits (s : string) : bool :=
  match s with
  | EmptyString => true
  | String c s' =>
      match digit_val c with
      | Some _ => all_digits s'
      | None => false
      end
  end.

Definition is_decimal (s : string) : bool :=
  match s with
  | EmptyString => false
  | String c rest =>
      let body := if Ascii.eqb c "+" || Ascii.eqb c "-" then rest else s in
      match body with
      | EmptyString => false
      | _ => all_digits body
      end
  end.

(** A world in which no command can be started. *)
Definition world_no_ipfs : World :=
  scripted []
    (mkOutcome None
       (Some (SysError "exec: ipfs: executable file not found in $PATH"))
       [] None [] None).

(** A store that answers the size query with [1000] and two newlines. *)
Definition world_stat_blank_line : World :=
  scripted
    [prints (bytes_of_string (("1000" ++ newline) ++ newline)%string)]
    (prints []).

(** Reading hexadecimal back: the value of a digit, and the bytes of a
    string of digit pairs. *)
Definition hex_val (c : ascii) : N :=
  let n := N_of_ascii c in
  if (n <? 58)%N then (n - 48)%N else (n - 87)%N.

Fixpoint unhex (s : string) : list byte :=
  match s with
  | String c1 (String c2 rest) =>
      match Byte.of_N (16 * hex_val c1 + hex_val c2) with
      | Some b => b :: unhex rest
      | None => []
      end
  | _ => []
  end.

(** A blob as large as [int64] allows, and a world in which the first
    read prints two bytes and leaves the lock report in the buffer, and the
    second read prints four bytes. *)
Definition huge_fetcher : fetcher := {| cid := "bafy123"; size := max_int64 |}.

Definition world_far_end : World :=
  scripted [dies_after (range sample_object 0 2) lock_message;
            prints (range sample_object 2 4)]
           (prints []).

(** Whether a command got as far as running: its output pipe was made
    and the process was started. *)
Definition started (o : Outcome) : bool :=
  match pipe_error o, start_error o with
  | None, None => true
  | _, _ => false
  end.

(** The world after an attempt whose command ran: the command is issued
    and left to the reaper; [d] seconds are slept and [es] is logged. *)
Definition after_attempt (w : World) (c : Cmd) (d : Z) (es : list LogEntry)
  : World :=
  mkWorld (oracle w) (issued w ++ [c]) (slept w + d) (debug w ++ es)
          (reaping w ++ [List.length (issued w)]).

(** The positions, from [n0] on, of those commands of [new] that ran. *)
Definition ran (w : World) (n0 : nat) (new : list Cmd) : list nat :=
  filter (fun k => started (oracle w k (nth (k - n0) new (mkCmd "" []))))
         (seq n0 (List.length new)).

(** The number a decimal numeral stands for, read digit by digit after
    [acc]. *)
Fixpoint uint_val (d : Decimal.uint) (acc : Z) : Z :=
  match d with
  | Decimal.Nil => acc
  | Decimal.D0 d => uint_val d (acc * 10 + 0)
  | Decimal.D1 d => uint_val d (acc * 10 + 1)
  | Decimal.D2 d => uint_val d (acc * 10 + 2)
  | Decimal.D3 d => uint_val d (acc * 10 + 3)
  | Decimal.D4 d => uint_val d (acc * 10 + 4)
  | Decimal.D5 d => uint_val d (acc * 10 + 5)
  | Decimal.D6 d => uint_val d (acc * 10 + 6)
  | Decimal.D7 d => uint_val d (acc * 10 + 7)
  | Decimal.D8 d => uint_val d (acc * 10 + 8)
  | Decimal.D9 d => uint_val d (acc * 10 + 9)
  end.

(** * Properties *)

(** ** Formatting *)

(** [%d] prints different integers differently. *)
Lemma fmt_d_inj (a b : Z) : fmt_d a = fmt_d b -> a = b.
Proof.
  unfold fmt_d. intros H.
  assert (Hn : forall z, Z.to_int z <> Decimal.Pos Decimal.Nil
                          /\ Z.to_int z <> Decimal.Neg Decimal.Nil).
  { intros [|q|q]; simpl; split; try discriminate;
      intros [= E]; exact (DecimalPos.Unsigned.to_uint_nonnil q E). }
  apply (f_equal NilZero.int_of_string) in H.
  rewrite !NilZero.isi in H by apply Hn.
  injection H as H. apply DecimalZ.to_int_inj. exact H.
Qed.

Lemma append_inj_l (p s t : string) : (p ++ s)%string = (p ++ t)%string -> s = t.
Proof.
  induction p as [|c p IH]; simpl; intros H; [exact H|].
  injection H as H. auto.
Qed.

(** ** [io.CopyN] *)

Lemma len_nonneg {A : Type} (l : list A) : 0 <= len l.
Proof. unfold len. lia. Qed.

Lemma len_app {A : Type} (l1 l2 : list A) : len (l1 ++ l2) = len l1 + len l2.
Proof. unfold len. rewrite length_app. lia. Qed.

Lemma len_firstn {A : Type} (k : Z) (l : list A) :
  0 <= k <= len l -> len (firstn (Z.to_nat k) l) = k.
Proof. unfold len. intros H. rewrite length_firstn. lia. Qed.

(** A write appends a prefix of the bytes and reports its length. *)
Lemma pw_Write_spec (p : Pipe) (b : list byte) :
  forall nw ew p', pw_Write p b = (nw, ew, p') ->
    received p' = received p ++ firstn (Z.to_nat nw) b
    /\ 0 <= nw <= len b
    /\ werr p' = werr p
    /\ (ew = None -> nw = len b).
Proof.
  unfold pw_Write. intros nw ew p'.
  destruct (werr p) eqn:Hw.
  - intros [= <- <- <-]. simpl. rewrite app_nil_r.
    pose proof (len_nonneg b). repeat split; try lia; auto; discriminate.
  - destruct (patience p) as [r|].
    + destruct (List.length b <=? r)%nat eqn:Hle.
      * intros [= <- <- <-]. simpl. unfold len. rewrite Nat2Z.id, firstn_all.
        repeat split; auto; lia.
      * apply Nat.leb_gt in Hle. intros [= <- <- <-]. simpl.
        rewrite Nat2Z.id. unfold len.
        repeat split; auto; try lia; discriminate.
    + intros [= <- <- <-]. simpl. unfold len. rewrite Nat2Z.id, firstn_all.
      repeat split; auto; lia.
Qed.

Lemma io_Copy_spec (dst : Pipe) (src : Reader) :
  forall nw e dst', io_Copy dst src = (nw, e, dst') ->
    received dst' = received dst ++ firstn (Z.to_nat nw) (rd_data src)
    /\ 0 <= nw <= len (rd_data src)
    /\ werr dst' = werr dst
    /\ (e = None -> nw = len (rd_data src)).
Proof.
  unfold io_Copy. intros nw e dst'.
  destruct (rd_data src) as [|x xs] eqn:Hd.
  - intros [= <- <- <-]. simpl. rewrite app_nil_r. unfold len. simpl.
    repeat split; auto; lia.
  - destruct (pw_Write dst (x :: xs)) as [[nw0 ew] d0] eqn:Hw.
    apply pw_Write_spec in Hw. destruct Hw as (Hr & Hn & Hc & He).
    destruct ew; intros [= <- <- <-]; repeat split; auto; try lia;
      try discriminate.
Qed.

(** [io.CopyN] appends the first [k] bytes of the source to what the reader
    has, [k] being the count it returns; it leaves the write side as it
    was; and it returns no error only if [k] is the limit (or the limit is
    negative, when nothing is copied). *)
Lemma io_CopyN_spec (dst : Pipe) (src : Reader) (n : Z) :
  forall k e dst', io_CopyN dst src n = (k, e, dst') ->
    received dst' = received dst ++ firstn (Z.to_nat k) (rd_data src)
    /\ 0 <= k <= len (rd_data src)
    /\ k <= Z.max n 0
    /\ werr dst' = werr dst
    /\ (e = None -> k = Z.max n 0).
Proof.
  unfold io_CopyN. intros k e dst'.
  destruct (io_Copy dst (io_LimitReader src n)) as [[written err] d0] eqn:Hc.
  apply io_Copy_spec in Hc. destruct Hc as (Hr & Hn & Hw & He).
  assert (Hlim : rd_data (io_LimitReader src n)
                 = firstn (Z.to_nat (Z.min (Z.max n 0) (len (rd_data src))))
                          (rd_data src)
                 /\ (rd_data (io_LimitReader src n) = rd_data src
                     \/ rd_err (io_LimitReader src n) = None)).
  { unfold io_LimitReader.
    destruct (n <=? 0) eqn:H0; [apply Z.leb_le in H0|apply Z.leb_gt in H0].
    - simpl. replace (Z.min (Z.max n 0) (len (rd_data src))) with 0
        by (pose proof (len_nonneg (rd_data src)); lia).
      auto.
    - destruct (n <=? len (rd_data src)) eqn:H1;
        [apply Z.leb_le in H1|apply Z.leb_gt in H1]; simpl.
      + replace (Z.min (Z.max n 0) (len (rd_data src))) with n by lia. auto.
      + replace (Z.min (Z.max n 0) (len (rd_data src)))
          with (len (rd_data src)) by lia.
        unfold len. rewrite Nat2Z.id, firstn_all. auto. }
  destruct Hlim as (Hd & _).
  pose proof (len_nonneg (rd_data src)) as Hpos.
  assert (Hl : len (rd_data (io_LimitReader src n))
               = Z.min (Z.max n 0) (len (rd_data src))).
  { rewrite Hd. apply len_firstn. lia. }
  assert (Hf : firstn (Z.to_nat written) (rd_data (io_LimitReader src n))
               = firstn (Z.to_nat written) (rd_data src)).
  { rewrite Hd, firstn_firstn. f_equal. lia. }
  rewrite Hf in Hr. rewrite Hl in Hn, He.
  destruct (written =? n) eqn:Heq; [apply Z.eqb_eq in Heq|apply Z.eqb_neq in Heq].
  - intros [= <- <- <-]. subst written. repeat split; auto; lia.
  - destruct err as [e0|].
    + intros [= <- <- <-]. repeat split; auto; try lia. discriminate.
    + specialize (He eq_refl).
      destruct (written <? n) eqn:Hlt;
        [apply Z.ltb_lt in Hlt|apply Z.ltb_ge in Hlt];
        intros [= <- <- <-]; repeat split; auto; try lia.
      discriminate.
Qed.

(** ** Machine arithmetic *)

Lemma wrap64_id (z : Z) : is_int64 z -> wrap64 z = z.
Proof.
  unfold is_int64, min_int64, max_int64, wrap64. intros H.
  rewrite Z.mod_small; lia.
Qed.

Lemma wrap64_add_l (a b : Z) : wrap64 (wrap64 a + b) = wrap64 (a + b).
Proof.
  unfold wrap64.
  replace ((a + 2 ^ 63) mod 2 ^ 64 - 2 ^ 63 + b + 2 ^ 63)
    with ((a + 2 ^ 63) mod 2 ^ 64 + b) by lia.
  rewrite Zplus_mod_idemp_l. do 2 f_equal. lia.
Qed.

(** ** One attempt *)

(** One attempt hands exactly one command to [os/exec], the read at the
    cursor with the length of the call; it delivers a prefix of what the
    command prints, at most [sz] bytes; it never closes the pipe; it asks
    for a retry only below the ceiling, with the marker on standard error,
    and then moves the cursor by the bytes delivered; it reports success
    only when [sz] bytes were delivered. *)
Lemma attempt_spec (f : fetcher) (off sz i curoff : Z) (pw : Pipe)
  (w : World) :
  forall cont err curoff' pw' w',
    attempt f off sz i curoff pw w = ((cont, err, curoff', pw'), w') ->
    issued w' = issued w ++ [cat_cmd f curoff sz]
    /\ oracle w' = oracle w
    /\ werr pw' = werr pw
    /\ exists n,
         0 <= n <= len (stdout (cat_outcome f sz curoff w))
         /\ n <= Z.max sz 0
         /\ received pw'
            = received pw
              ++ firstn (Z.to_nat n) (stdout (cat_outcome f sz curoff w))
         /\ (cont = true ->
             err = None /\ i < maxretry
             /\ Contains
                  (string_of_bytes (stderr (cat_outcome f sz curoff w)))
                  lock_marker = true
             /\ curoff' = wrap64 (curoff + n)
             /\ slept w' = slept w + time_Second)
         /\ (cont = false -> curoff' = curoff /\ slept w' = slept w)
         /\ (cont = false -> err = None -> n = Z.max sz 0).
Proof.
  intros cont err curoff' pw' w'.
  unfold attempt, bind, exec, cat_outcome.
  set (o := oracle w (List.length (issued w)) (cat_cmd f curoff sz)).
  pose proof (len_nonneg (stdout o)) as Hpos.
  unfold cmd_StdoutPipe, cmd_Start.
  destruct (pipe_error o) as [e|].
  { intros [= <- <- <- <- <-]. simpl. repeat split; auto.
    exists 0. rewrite app_nil_r.
    repeat split; auto; try lia; try discriminate. }
  destruct (start_error o) as [e|].
  { intros [= <- <- <- <- <-]. simpl. repeat split; auto.
    exists 0. rewrite app_nil_r.
    repeat split; auto; try lia; try discriminate. }
  destruct (io_CopyN pw {| rd_data := stdout o; rd_err := stdout_error o |} sz)
    as [[n e] p] eqn:Hc.
  apply io_CopyN_spec in Hc. simpl in Hc.
  destruct Hc as (Hr & Hn & Hm & Hw & He).
  destruct e as [e|].
  - destruct ((i <? maxretry)
              && Contains (string_of_bytes (stderr o)) lock_marker) eqn:Hb.
    + apply andb_prop in Hb. destruct Hb as [Hi Hs]. apply Z.ltb_lt in Hi.
      intros [= <- <- <- <- <-]. simpl. repeat split; auto.
      exists n. repeat split; auto; try lia; try discriminate.
    + intros [= <- <- <- <- <-]. simpl. repeat split; auto.
      exists n. repeat split; auto; try lia; try discriminate.
  - intros [= <- <- <- <- <-]. simpl. repeat split; auto.
    exists n. repeat split; auto; try lia; try discriminate.
Qed.

(** The conditions under which an attempt asks for a retry: the copy failed
    after [n] bytes, the marker is on standard error, and the counter is
    below the ceiling.  The cursor moves by [n]. *)
Lemma attempt_transient (f : fetcher) (off sz i curoff : Z) (pw : Pipe)
  (w : World) (n : Z) (e : error) (pw' : Pipe) :
  let o := cat_outcome f sz curoff w in
  pipe_error o = None ->
  start_error o = None ->
  io_CopyN pw (mkReader (stdout o) (stdout_error o)) sz = (n, Some e, pw') ->
  Contains (string_of_bytes (stderr o)) lock_marker = true ->
  i < maxretry ->
  exists w',
    attempt f off sz i curoff pw w
      = ((true, None, wrap64 (curoff + n), pw'), w').
Proof.
  intros o Hp Hs Hc Hm Hi.
  unfold attempt, bind, exec. fold (cat_outcome f sz curoff w). fold o.
  unfold cmd_StdoutPipe, cmd_Start. rewrite Hp, Hs, Hc, Hm.
  apply Z.ltb_lt in Hi. rewrite Hi. simpl. eexists. reflexivity.
Qed.

(** ** The loop *)

Lemma loop_S (fuel : nat) (f : fetcher) (off sz i curoff : Z) (pw : Pipe)
  (w : World) :
  loop (S fuel) f off sz i curoff pw w
  = let '((cont, err, curoff', pw'), w') := attempt f off sz i curoff pw w in
    match err with
    | Some e => (pw_CloseWithError pw' (Some e), w')
    | None =>
        if cont : bool then loop fuel f off sz (i + 1) curoff' pw' w'
        else (pw_Close pw', w')
    end.
Proof.
  simpl. unfold bind.
  destruct (attempt f off sz i curoff pw w) as [[[[cont err] c] p] w'].
  destruct err; [reflexivity|]. destruct cont; reflexivity.
Qed.

(** A retry taken at the first head can be put in front of the retries
    that follow it. *)
Lemma retries_front (f : fetcher) (off sz : Z) (h0 : Head) (curoff' : Z)
  (pw' : Pipe) (w' : World) (h : Head) :
  attempt f off sz (hd_i h0) (hd_curoff h0) (hd_pw h0) (hd_world h0)
    = ((true, None, curoff', pw'), w') ->
  retries f off sz (mkHead (hd_i h0 + 1) curoff' pw' w') h ->
  retries f off sz h0 h.
Proof.
  intros Ha Hr. induction Hr as [|h1 c p w1 Hr IH Hstep].
  - apply (retries_next f off sz h0 h0); [constructor | exact Ha].
  - apply (retries_next f off sz h0 h1); assumption.
Qed.

Lemma cat_cmd_is_cat (f : fetcher) (curoff sz : Z) :
  is_cat_with_length f sz (cat_cmd f curoff sz).
Proof. exists curoff. split; reflexivity. Qed.

(** What holds at every head the loop comes back to: the counter has
    grown by the number of commands handed out since, each of them a read
    with the length of the call; the oracle and the write side are
    untouched; the reader has received more bytes, and the cursor has
    moved by their number. *)
Lemma retries_inv (f : fetcher) (off sz : Z) (h0 h : Head) :
  retries f off sz h0 h ->
  exists (new : list Cmd) (extra : list byte),
    issued (hd_world h) = issued (hd_world h0) ++ new
    /\ Forall (is_cat_with_length f sz) new
    /\ hd_i h = hd_i h0 + len new
    /\ (new <> [] -> hd_i h <= maxretry)
    /\ oracle (hd_world h) = oracle (hd_world h0)
    /\ werr (hd_pw h) = werr (hd_pw h0)
    /\ received (hd_pw h) = received (hd_pw h0) ++ extra
    /\ (is_int64 (hd_curoff h0) ->
        hd_curoff h = wrap64 (hd_curoff h0 + len extra)).
Proof.
  induction 1 as [|h1 c p w1 Hr IH Hstep].
  - exists [], []. rewrite !app_nil_r. unfold len. simpl.
    repeat split; auto; try lia; try congruence.
    intros Hc. rewrite Z.add_0_r, wrap64_id; auto.
  - destruct IH as (new & extra & Hi & Hf & Hn & Hm & Ho & Hw & Hd & Hc).
    apply attempt_spec in Hstep.
    destruct Hstep as (Si & So & Sw & n & Sn & Sm & Sr & St & _).
    destruct (St eq_refl) as (_ & Slt & _ & Sc & _).
    set (out := stdout (cat_outcome f sz (hd_curoff h1) (hd_world h1))) in *.
    exists (new ++ [cat_cmd f (hd_curoff h1) sz]),
           (extra ++ firstn (Z.to_nat n) out).
    cbn [hd_i hd_curoff hd_pw hd_world]. repeat split.
    + rewrite Si, Hi, app_assoc. reflexivity.
    + apply Forall_app. split; [exact Hf|].
      constructor; [apply cat_cmd_is_cat | constructor].
    + rewrite len_app, Hn. unfold len at 3. simpl. lia.
    + intros _. lia.
    + congruence.
    + congruence.
    + rewrite Sr, Hd, app_assoc. reflexivity.
    + intros H64. rewrite Sc, (Hc H64), wrap64_add_l, len_app.
      rewrite (len_firstn n) by exact Sn. f_equal. lia.
Qed.

(** With fuel for the retries that are left, the loop runs through some
    retries, makes a last attempt that does not ask for another, and closes
    the pipe with the error of that attempt (cleanly when there is none). *)
Lemma loop_run (f : fetcher) (off sz : Z) (fuel : nat) :
  forall (i curoff : Z) (pw : Pipe) (w : World),
    (Z.to_nat (maxretry - i) < fuel)%nat ->
    exists (h : Head) (err : option error) (curoff' : Z) (pw' : Pipe)
           (w' : World),
      retries f off sz (mkHead i curoff pw w) h
      /\ attempt f off sz (hd_i h) (hd_curoff h) (hd_pw h) (hd_world h)
         = ((false, err, curoff', pw'), w')
      /\ loop fuel f off sz i curoff pw w = (pw_CloseWithError pw' err, w').
Proof.
  induction fuel as [|fuel IH]; intros i curoff pw w Hfuel; [lia|].
  rewrite loop_S.
  destruct (attempt f off sz i curoff pw w) as [[[[cont err] c] p] w1] eqn:Ha.
  destruct cont.
  - pose proof (attempt_spec _ _ _ _ _ _ _ _ _ _ _ _ Ha) as Hs.
    destruct Hs as (_ & _ & _ & n & _ & _ & _ & St & _).
    destruct (St eq_refl) as (-> & Hlt & _).
    destruct (IH (i + 1) c p w1) as (h & e & c' & p' & w' & Hr & Hl & Hres);
      [lia|].
    exists h, e, c', p', w'. repeat split; auto.
    apply (retries_front f off sz (mkHead i curoff pw w) c p w1); assumption.
  - exists (mkHead i curoff pw w), err, c, p, w1. repeat split.
    + constructor.
    + exact Ha.
    + destruct err; reflexivity.
Qed.

(** More fuel than the retries that are left changes nothing. *)
Lemma loop_fuel (f : fetcher) (off sz : Z) (fuel1 fuel2 : nat) :
  forall (i curoff : Z) (pw : Pipe) (w : World),
    (Z.to_nat (maxretry - i) < fuel1)%nat ->
    (Z.to_nat (maxretry - i) < fuel2)%nat ->
    loop fuel1 f off sz i curoff pw w = loop fuel2 f off sz i curoff pw w.
Proof.
  revert fuel2. induction fuel1 as [|fuel1 IH]; intros fuel2 i curoff pw w H1 H2;
    [lia|].
  destruct fuel2 as [|fuel2]; [lia|].
  rewrite !loop_S.
  destruct (attempt f off sz i curoff pw w) as [[[[cont err] c] p] w1] eqn:Ha.
  destruct err; [reflexivity|]. destruct cont; [|reflexivity].
  apply attempt_spec in Ha.
  destruct Ha as (_ & _ & _ & n & _ & _ & _ & St & _).
  destruct (St eq_refl) as (_ & Hlt & _).
  apply IH; lia.
Qed.

(** ** [Fetch] *)

Lemma Fetch_rejected (f : fetcher) (off sz : Z) (reader : option nat)
  (w : World) :
  size f < off -> Fetch f off sz reader w = (inl (range_error f off), w).
Proof.
  intros H. unfold Fetch. apply Z.ltb_lt in H. rewrite H. reflexivity.
Qed.

Lemma Fetch_accepted (f : fetcher) (off sz : Z) (reader : option nat)
  (w : World) :
  off <= size f ->
  Fetch f off sz reader w
  = let (p, w') :=
      loop (S (Z.to_nat maxretry)) f off sz 0 off (io_Pipe reader) w in
    (inr p, w').
Proof.
  intros H. unfold Fetch. apply Z.ltb_ge in H. rewrite H. unfold bind.
  destruct (loop _ f off sz 0 off (io_Pipe reader) w). reflexivity.
Qed.

(** An accepted call runs the loop to its end: some retries, a last
    attempt, and the close. *)
Lemma Fetch_run (f : fetcher) (off sz : Z) (reader : option nat) (w : World) :
  off <= size f ->
  exists (h : Head) (err : option error) (curoff' : Z) (pw' : Pipe)
         (w' : World),
    retries f off sz (start off reader w) h
    /\ attempt f off sz (hd_i h) (hd_curoff h) (hd_pw h) (hd_world h)
       = ((false, err, curoff', pw'), w')
    /\ Fetch f off sz reader w = (inr (pw_CloseWithError pw' err), w').
Proof.
  intros H. rewrite Fetch_accepted by exact H.
  destruct (loop_run f off sz (S (Z.to_nat maxretry)) 0 off (io_Pipe reader) w)
    as (h & err & c & p & w' & Hr & Ha & Hl); [unfold maxretry; lia|].
  exists h, err, c, p, w'. rewrite Hl. auto.
Qed.

(** The goroutine of an accepted call terminates: the stream is closed,
    and more fuel than [maxretry + 1] gives the same stream. *)
Lemma Fetch_closes_stream (f : fetcher) (off sz : Z) (reader : option nat)
  (w : World) :
  off <= size f ->
  exists (p : Pipe) (e : error),
    fst (Fetch f off sz reader w) = inr p /\ werr p = Some e
    /\ forall fuel, (Z.to_nat maxretry < fuel)%nat ->
         fst (loop fuel f off sz 0 off (io_Pipe reader) w) = p.
Proof.
  intros H. destruct (Fetch_run f off sz reader w H)
    as (h & err & c & p & w' & Hr & Ha & Hf).
  apply retries_inv in Hr. destruct Hr as (_ & _ & _ & _ & _ & _ & _ & Hw & _).
  apply attempt_spec in Ha. destruct Ha as (_ & _ & Hw' & _).
  assert (Hopen : werr p = None) by (rewrite Hw', Hw; reflexivity).
  exists (pw_CloseWithError p err),
         (match err with Some e => e | None => EOF end).
  rewrite Hf. simpl. unfold pw_CloseWithError. rewrite Hopen. simpl.
  repeat split.
  intros fuel Hfuel.
  rewrite (loop_fuel f off sz fuel (S (Z.to_nat maxretry)))
    by (unfold maxretry in *; lia).
  rewrite Fetch_accepted in Hf by exact H.
  destruct (loop (S (Z.to_nat maxretry)) f off sz 0 off (io_Pipe reader) w).
  injection Hf as Hp _. simpl. rewrite Hp. unfold pw_CloseWithError.
  rewrite Hopen. reflexivity.
Qed.

(** The commands handed out by the loop: the read at the cursor first, then
    at most one more per retry that is left, all reads with the length of
    the call. *)
Lemma loop_issued (f : fetcher) (off sz : Z) (fuel : nat) :
  forall (i curoff : Z) (pw : Pipe) (w : World),
    0 <= i <= maxretry ->
    (Z.to_nat (maxretry - i) < fuel)%nat ->
    exists rest : list Cmd,
      issued (snd (loop fuel f off sz i curoff pw w))
      = issued w ++ cat_cmd f curoff sz :: rest
      /\ Forall (is_cat_with_length f sz) rest
      /\ len rest <= maxretry - i.
Proof.
  induction fuel as [|fuel IH]; intros i curoff pw w Hi Hfuel; [lia|].
  rewrite loop_S.
  destruct (attempt f off sz i curoff pw w) as [[[[cont err] c] p] w1] eqn:Ha.
  apply attempt_spec in Ha.
  destruct Ha as (Si & _ & _ & n & _ & _ & _ & St & _).
  assert (Hlast : exists rest : list Cmd,
             issued w1 = issued w ++ cat_cmd f curoff sz :: rest
             /\ Forall (is_cat_with_length f sz) rest
             /\ len rest <= maxretry - i).
  { exists []. rewrite Si. unfold len. cbn [List.length Z.of_nat].
    repeat split; auto; lia. }
  destruct err; [exact Hlast|]. destruct cont; [|exact Hlast].
  destruct (St eq_refl) as (_ & Hlt & _).
  destruct (IH (i + 1) c p w1) as (rest & Hr & Hf & Hn); [lia|lia|].
  exists (cat_cmd f c sz :: rest). rewrite Hr, Si, <- app_assoc.
  repeat split.
  - constructor; [apply cat_cmd_is_cat | exact Hf].
  - unfold len in *. cbn [List.length]. rewrite Nat2Z.inj_succ. lia.
Qed.

(** An accepted call hands out the read at [off] first, and at most
    [maxretry] reads after it. *)
Lemma Fetch_issued (f : fetcher) (off sz : Z) (reader : option nat)
  (w : World) :
  off <= size f ->
  exists rest : list Cmd,
    issued (snd (Fetch f off sz reader w))
    = issued w ++ cat_cmd f off sz :: rest
    /\ Forall (is_cat_with_length f sz) rest
    /\ len rest <= maxretry.
Proof.
  intros H. rewrite Fetch_accepted by exact H.
  destruct (loop_issued f off sz (S (Z.to_nat maxretry)) 0 off
              (io_Pipe reader) w) as (rest & Hr & Hf & Hn);
    [unfold maxretry; lia | unfold maxretry; lia |].
  exists rest.
  destruct (loop (S (Z.to_nat maxretry)) f off sz 0 off (io_Pipe reader) w).
  simpl in *. repeat split; auto; lia.
Qed.

(** C5: for every offset strictly greater than the size the fetcher is
    bound to, [Fetch] returns an error at once: no stream is made, and the
    world is left as it was, so no external command is handed out. *)
Theorem Fetch_rejects_offset_beyond_size (f : fetcher) (off sz : Z)
  (reader : option nat) (w : World) :
  size f < off ->
  Fetch f off sz reader w = (inl (range_error f off), w).
Proof.
  intros H. unfold Fetch. apply Z.ltb_lt in H. rewrite H. reflexivity.
Qed.

(** Offset 11 of the ten-byte blob. *)
Lemma Fetch_rejects_offset_beyond_size_witness :
  size sample_fetcher < 11
  /\ Fetch sample_fetcher 11 4 None world_locked_once
     = (inl (range_error sample_fetcher 11), world_locked_once).
Proof.
  split.
  - simpl. lia.
  - apply (Fetch_rejects_offset_beyond_size sample_fetcher 11 4 None
             world_locked_once).
    simpl. lia.
Defined.

(** C10: the check of the offset is strict and is the only validation:
    [Fetch] returns an error if and only if the offset is greater than the
    bound size; every other call, whatever its offset (equal to the size,
    negative) and its length (beyond the size, zero, negative), gets a
    stream and goes on to hand out the read at that offset with that
    length. *)
Theorem Fetch_validates_offset_only (f : fetcher) (off sz : Z)
  (reader : option nat) (w : World) :
  ((exists e, fst (Fetch f off sz reader w) = inl e) <-> size f < off)
  /\ (off <= size f ->
      exists (p : Pipe) (rest : list Cmd),
        fst (Fetch f off sz reader w) = inr p
        /\ issued (snd (Fetch f off sz reader w))
           = issued w ++ cat_cmd f off sz :: rest).
Proof.
  split; [split|].
  - intros [e He]. destruct (Z.lt_ge_cases (size f) off) as [Hlt|Hge]; auto.
    rewrite Fetch_accepted in He by exact Hge.
    destruct (loop _ f off sz 0 off (io_Pipe reader) w). discriminate.
  - intros Hlt. rewrite Fetch_rejected by exact Hlt.
    eexists. reflexivity.
  - intros Hle. destruct (Fetch_issued f off sz reader w Hle)
      as (rest & Hr & _).
    destruct (Fetch_closes_stream f off sz reader w Hle) as (p & _ & Hp & _).
    exists p, rest. auto.
Qed.

(** Offset 10 of the ten-byte blob, with length -1. *)
Lemma Fetch_validates_offset_only_witness :
  10 <= size sample_fetcher
  /\ exists (p : Pipe) (rest : list Cmd),
       fst (Fetch sample_fetcher 10 (-1) None world_locked_once) = inr p
       /\ issued (snd (Fetch sample_fetcher 10 (-1) None world_locked_once))
          = issued world_locked_once
            ++ cat_cmd sample_fetcher 10 (-1) :: rest.
Proof.
  split.
  - simpl. lia.
  - apply (proj2 (Fetch_validates_offset_only sample_fetcher 10 (-1) None
                    world_locked_once)).
    simpl. lia.
Defined.

(** The head after the first attempt, when that attempt asks for a retry:
    the attempt is run. *)
Ltac first_retry :=
  match goal with
  | |- retries _ _ _ ?h0 (mkHead ?i ?c ?p ?w) =>
      change (mkHead i c p w) with (mkHead (hd_i h0 + 1) c p w);
      apply retries_next; [constructor | vm_compute; reflexivity]
  end.

(** C6, as amended: every command handed out by one call of [Fetch], the
    first read and every resumed one, is an [ipfs cat] whose length argument
    is the length of the call, and is the argument of no other length. *)
Theorem Fetch_commands_carry_original_length (f : fetcher) (off sz : Z)
  (reader : option nat) (w : World) :
  exists new : list Cmd,
    issued (snd (Fetch f off sz reader w)) = issued w ++ new
    /\ Forall (is_cat_with_length f sz) new
    /\ forall (c : Cmd) (n : Z),
         In c new -> n <> sz ->
         nth 3 (Args c) "" <> ("--length=" ++ fmt_d n)%string.
Proof.
  assert (Hnew : exists new : list Cmd,
             issued (snd (Fetch f off sz reader w)) = issued w ++ new
             /\ Forall (is_cat_with_length f sz) new).
  { destruct (Z.lt_ge_cases (size f) off) as [Hlt|Hge].
    - exists []. rewrite Fetch_rejected by exact Hlt.
      simpl. rewrite app_nil_r. auto.
    - destruct (Fetch_issued f off sz reader w Hge) as (rest & Hr & Hf & _).
      exists (cat_cmd f off sz :: rest). split; [exact Hr|].
      constructor; [apply cat_cmd_is_cat | exact Hf]. }
  destruct Hnew as (new & Hi & Hf). exists new. repeat split; auto.
  intros c n Hin Hn Heq.
  rewrite Forall_forall in Hf. destruct (Hf c Hin) as (curoff & _ & Ha).
  rewrite Ha in Heq. cbn [nth] in Heq.
  apply append_inj_l, fmt_d_inj in Heq. auto.
Qed.

(** C6, the counterexample: the threshold of the copy is not the remaining
    length.  [Fetch short_fetcher 0 4] comes to its second attempt with two
    bytes delivered and the cursor at 2; the command prints the two bytes
    that remain, and the attempt, having copied exactly the remaining
    length [4 - (2 - 0)], does not declare success: it reports [io.EOF]. *)
Lemma resumed_threshold_is_not_remaining :
  retries short_fetcher 0 4 (start 0 None world_short_locked_once)
          (mkHead 1 2 resumed_pipe resumed_world_short)
  /\ exists (p : Pipe) (w' : World),
       attempt short_fetcher 0 4 1 2 resumed_pipe resumed_world_short
         = ((false, Some EOF, 2, p), w')
       /\ len (received p) - len (received resumed_pipe) = 4 - (2 - 0).
Proof.
  split.
  - first_retry.
  - eexists. eexists. split; vm_compute; reflexivity.
Qed.

(** C1, where the code departs from it: [Fetch sample_fetcher 0 4] on the
    ten-byte object, the lock held while the first read had printed two
    bytes.  The reads handed out are those at offsets 0 and 2, both with
    length 4; the stream, read to its end, yields the six bytes [0, 6) and
    a clean end, not the four bytes [0, 4). *)
Theorem Fetch_resumed_stream_has_extra_bytes :
  exists (p : Pipe) (w' : World),
    Fetch sample_fetcher 0 4 None world_locked_once = (inr p, w')
    /\ map Args (issued w')
       = [["ipfs"; "cat"; "--offset=0"; "--length=4"; "bafy123"];
          ["ipfs"; "cat"; "--offset=2"; "--length=4"; "bafy123"]]
    /\ io_ReadAll p = Some (range sample_object 0 6, None)
    /\ range sample_object 0 6 <> range sample_object 0 4.
Proof.
  eexists. eexists. split; [vm_compute; reflexivity|].
  split; [vm_compute; reflexivity|].
  split; [vm_compute; reflexivity|].
  vm_compute. discriminate.
Qed.

(** C2, where the code departs from it: the second attempt of
    [Fetch sample_fetcher 0 4] in [world_locked_once], two bytes delivered
    and the cursor at 2.  The remaining length is [4 - (2 - 0) = 2]; the
    attempt copies four more bytes, the full length, and only then declares
    success. *)
Theorem resumed_attempt_copies_full_length :
  retries sample_fetcher 0 4 (start 0 None world_locked_once)
          (mkHead 1 2 resumed_pipe resumed_world)
  /\ exists (p : Pipe) (w' : World),
       attempt sample_fetcher 0 4 1 2 resumed_pipe resumed_world
         = ((false, None, 2, p), w')
       /\ received p = range sample_object 0 6
       /\ len (received p) - len (received resumed_pipe) = 4
       /\ 4 - (2 - 0) = 2.
Proof.
  split.
  - first_retry.
  - eexists. eexists. split; [vm_compute; reflexivity|].
    repeat (split; [vm_compute; reflexivity|]). vm_compute. reflexivity.
Qed.

(** Closing the write side with [io.EOF] is closing it cleanly. *)
Lemma pw_CloseWithError_EOF (p : Pipe) :
  pw_CloseWithError p (Some EOF) = pw_Close p.
Proof. reflexivity. Qed.

(** A source that ends before the limit makes [io.CopyN] fail with
    [io.EOF]. *)
Lemma io_CopyN_short_source (dst : Pipe) (data : list byte) (n : Z) :
  werr dst = None -> patience dst = None -> len data < n ->
  io_CopyN dst (mkReader data None) n
  = (len data, Some EOF, mkPipe (received dst ++ data) None None).
Proof.
  intros Hw Hp Hn. pose proof (len_nonneg data) as Hpos.
  unfold io_CopyN, io_LimitReader. cbn [rd_data rd_err].
  destruct (n <=? 0) eqn:H0; [apply Z.leb_le in H0; lia|].
  destruct (n <=? len data) eqn:H1; [apply Z.leb_le in H1; lia|].
  unfold io_Copy. cbn [rd_data rd_err].
  destruct data as [|x xs].
  - unfold len in *. cbn [List.length Z.of_nat] in *.
    destruct (0 =? n) eqn:E; [apply Z.eqb_eq in E; lia|].
    destruct (0 <? n) eqn:E'; [|apply Z.ltb_ge in E'; lia].
    rewrite app_nil_r. destruct dst as [r pt we]. simpl in *. subst.
    reflexivity.
  - unfold pw_Write. rewrite Hw, Hp.
    destruct (len (x :: xs) =? n) eqn:E; [apply Z.eqb_eq in E; lia|].
    destruct (len (x :: xs) <? n) eqn:E'; [|apply Z.ltb_ge in E'; lia].
    reflexivity.
Qed.

(** C4, where the code departs from it.  With the lock never released,
    [Fetch sample_fetcher 0 4] hands out 101 reads and then closes the
    stream with the error of the last copy, which is [io.EOF]: the reader
    sees no bytes and a clean end, as from a stream closed with [Close].
    With the object lost after two bytes, the attempt is logged as failed
    and the stream is again closed with [io.EOF]: the reader sees two
    bytes and a clean end. *)
Theorem Fetch_failure_reads_as_clean_EOF :
  (exists (p : Pipe) (w' : World),
     Fetch sample_fetcher 0 4 None world_locked_forever = (inr p, w')
     /\ len (issued w') = 101
     /\ werr p = Some EOF
     /\ io_ReadAll p = Some ([], None)
     /\ p = pw_Close (io_Pipe None))
  /\ (exists (p : Pipe) (w' : World),
        Fetch sample_fetcher 0 4 None world_truncating = (inr p, w')
        /\ map lg_format (debug w') = [fail_format]
        /\ map lg_error (debug w') = [EOF]
        /\ io_ReadAll p = Some (range sample_object 0 2, None)
        /\ p = pw_Close (mkPipe (range sample_object 0 2) None None)).
Proof.
  split; eexists; eexists; (split; [vm_compute; reflexivity|]);
    repeat (split; [vm_compute; reflexivity|]); vm_compute; reflexivity.
Qed.

(** A call hands out at most [maxretry] reads after the first. *)
Lemma Fetch_retry_bound (f : fetcher) (off sz : Z) (reader : option nat)
  (w : World) :
  exists new : list Cmd,
    issued (snd (Fetch f off sz reader w)) = issued w ++ new
    /\ len new <= maxretry + 1.
Proof.
  destruct (Z.lt_ge_cases (size f) off) as [Hlt|Hge].
  - exists []. rewrite Fetch_rejected by exact Hlt.
    simpl. rewrite app_nil_r. unfold len, maxretry. simpl. split; [auto|lia].
  - destruct (Fetch_issued f off sz reader w Hge) as (rest & Hr & _ & Hn).
    exists (cat_cmd f off sz :: rest). split; [exact Hr|].
    unfold len in *. cbn [List.length]. rewrite Nat2Z.inj_succ. lia.
Qed.

(** An accepted call closes the stream with the error of its last
    attempt, and cleanly when that attempt has none. *)
Lemma Fetch_closes_with_last_error (f : fetcher) (off sz : Z)
  (reader : option nat) (w : World) :
  off <= size f ->
  exists (h : Head) (err : option error) (curoff' : Z) (pw' : Pipe)
         (w' : World) (p : Pipe),
    retries f off sz (start off reader w) h
    /\ attempt f off sz (hd_i h) (hd_curoff h) (hd_pw h) (hd_world h)
       = ((false, err, curoff', pw'), w')
    /\ Fetch f off sz reader w = (inr p, w')
    /\ received p = received pw'
    /\ werr p = Some (match err with Some e => e | None => EOF end).
Proof.
  intros H. destruct (Fetch_run f off sz reader w H)
    as (h & err & c & p & w' & Hr & Ha & Hf).
  exists h, err, c, p, w', (pw_CloseWithError p err).
  repeat split; auto.
  - unfold pw_CloseWithError. destruct (werr p); reflexivity.
  - pose proof (retries_inv f off sz _ _ Hr) as Hinv.
    destruct Hinv as (_ & _ & _ & _ & _ & _ & _ & Hw & _).
    apply attempt_spec in Ha. destruct Ha as (_ & _ & Hw' & _).
    unfold pw_CloseWithError. rewrite Hw', Hw. reflexivity.
Qed.

(** ** [strconv.ParseInt] *)

Lemma digit_val_range (c : ascii) (d : Z) : digit_val c = Some d -> 0 <= d <= 9.
Proof.
  unfold digit_val.
  destruct ((48 <=? Z.of_N (N_of_ascii c)) && (Z.of_N (N_of_ascii c) <=? 57))
    eqn:H; [|discriminate].
  apply andb_prop in H. destruct H as [H1 H2].
  apply Z.leb_le in H1, H2. intros [= <-]. lia.
Qed.

Lemma parse_digits_ok (s : string) :
  forall n v, 0 <= n -> parse_digits s n = inr v ->
    all_digits s = true /\ 0 <= v.
Proof.
  induction s as [|c s IH]; cbn [parse_digits all_digits]; intros n v Hn.
  - intros [= <-]. auto.
  - destruct (digit_val c) as [d|] eqn:Hd; [|discriminate].
    apply digit_val_range in Hd.
    destruct (2 ^ 64 / 10 + 1 <=? n); [discriminate|].
    destruct (2 ^ 64 - 1 <? n * 10 + d); [discriminate|].
    apply IH. lia.
Qed.

(** [ParseInt] succeeds only on decimal integers, and only with a value
    that fits [int64]. *)
Lemma ParseInt_decimal (s : string) (n : Z) :
  ParseInt s = inr n -> is_decimal s = true /\ is_int64 n.
Proof.
  unfold ParseInt, is_decimal. destruct s as [|c rest]; [discriminate|].
  set (body := if Ascii.eqb c "+" || Ascii.eqb c "-" then rest
               else String c rest).
  destruct (ParseUint body) as [[|]|un] eqn:Hu; try discriminate.
  unfold ParseUint in Hu.
  assert (Hb : match body with
               | EmptyString => false
               | _ => all_digits body
               end = true /\ 0 <= un).
  { destruct body; [discriminate|]. apply (parse_digits_ok _ 0); [lia|auto]. }
  destruct Hb as [Hb Hpos].
  destruct (Ascii.eqb c "-") eqn:Hneg; cbn [negb andb].
  - destruct (2 ^ 63 <? un) eqn:Hc; [discriminate|]. apply Z.ltb_ge in Hc.
    intros [= <-]. split; [exact Hb|].
    unfold is_int64, min_int64, max_int64. lia.
  - destruct (2 ^ 63 <=? un) eqn:Hc; [discriminate|]. apply Z.leb_gt in Hc.
    intros [= <-]. split; [exact Hb|].
    unfold is_int64, min_int64, max_int64. lia.
Qed.

(** ** [Handle], [Check] and [GenID] *)

(** Without a CID, [Handle] fails at once and asks the store nothing. *)
Lemma Handle_without_cid (Descriptor : Type)
  (GetCID : Descriptor -> error + string) (desc : Descriptor) (w : World)
  (e : error) :
  GetCID desc = inl e -> Handle Descriptor GetCID desc w = (inl e, w).
Proof. intros H. unfold Handle. rewrite H. reflexivity. Qed.

(** C7: once the CID is known, [Handle] hands the size query to the store
    and does nothing else to the world.  It fails with the error of the
    query when the query fails, and with the error of [ParseInt] when the
    output, less one trailing newline, is not a decimal integer that fits
    [int64]; when it succeeds, the fetcher is bound to the CID and to the
    number parsed from the output, and that number is the size returned. *)
Theorem Handle_size_query (Descriptor : Type)
  (GetCID : Descriptor -> error + string) (desc : Descriptor) (w : World)
  (c : string) :
  GetCID desc = inr c ->
  let o := oracle w (List.length (issued w)) (stat_size_cmd c) in
  let out := TrimSuffix (string_of_bytes (stdout o)) newline in
  let r := Handle Descriptor GetCID desc w in
  snd r = after_command w (stat_size_cmd c)
  /\ (forall e, cmd_Run o = Some e -> fst r = inl e)
  /\ (cmd_Run o = None -> is_decimal out = false -> exists e, fst r = inl e)
  /\ (cmd_Run o = None -> forall e, ParseInt out = inl e -> fst r = inl e)
  /\ (cmd_Run o = None -> forall n, ParseInt out = inr n ->
      fst r = inr ({| cid := c; size := n |}, n))
  /\ (forall ft n, fst r = inr (ft, n) ->
      cmd_Run o = None /\ ParseInt out = inr n
      /\ cid ft = c /\ size ft = n /\ is_int64 n).
Proof.
  intros Hc o out r.
  assert (Hr : r = match cmd_Run o with
                   | Some e => (inl e, after_command w (stat_size_cmd c))
                   | None =>
                       match ParseInt out with
                       | inl e => (inl e, after_command w (stat_size_cmd c))
                       | inr n => (inr ({| cid := c; size := n |}, n),
                                   after_command w (stat_size_cmd c))
                       end
                   end).
  { unfold r, Handle. rewrite Hc. unfold bind, exec. cbn [snd].
    fold (stat_size_cmd c). fold o. unfold cmd_Output, cmd_Run.
    destruct (start_error o); [reflexivity|].
    destruct (exit_error o); [reflexivity|].
    fold out. destruct (ParseInt out); reflexivity. }
  rewrite Hr. clear Hr.
  destruct (cmd_Run o) as [e0|].
  - split; [reflexivity|].
    split; [intros e [= <-]; reflexivity|].
    do 3 (split; [intros; discriminate|]).
    intros ft n Hft. discriminate.
  - destruct (ParseInt out) as [e1|n1] eqn:Hp.
    + split; [reflexivity|].
      split; [intros e He; discriminate|].
      split; [intros _ _; eexists; reflexivity|].
      split; [intros _ e [= <-]; reflexivity|].
      split; [intros _ n Hn; discriminate|].
      intros ft n Hft. discriminate.
    + pose proof (ParseInt_decimal _ _ Hp) as [Hd H64].
      split; [reflexivity|].
      split; [intros e He; discriminate|].
      split; [intros _ Hnd; congruence|].
      split; [intros _ e He; discriminate|].
      split; [intros _ n [= <-]; reflexivity|].
      intros ft n Hft. cbn [fst] in Hft. injection Hft as <- <-.
      split; [reflexivity|]. split; [reflexivity|].
      split; [reflexivity|]. split; [reflexivity|]. exact H64.
Qed.

(** A descriptor of [bafy123] in a store that reports 1000 bytes. *)
Lemma Handle_size_query_witness :
  (fun _ : unit => inr "bafy123" : error + string) tt = inr "bafy123"
  /\ fst (Handle unit (fun _ => inr "bafy123") tt world_stat)
     = inr ({| cid := "bafy123"; size := 1000 |}, 1000).
Proof.
  split; [reflexivity|].
  apply (proj1 (proj2 (proj2 (proj2 (proj2
           (Handle_size_query unit (fun _ => inr "bafy123") tt world_stat
              "bafy123" eq_refl)))))); vm_compute; reflexivity.
Defined.

(** C9: [Check] hands the existence query for the bound CID to the store
    and returns what running it returns: [nil] exactly when the command
    starts and exits without error, and otherwise the error of the command
    itself, as it is. *)
Theorem Check_returns_query_error (f : fetcher) (w : World) :
  let o := oracle w (List.length (issued w)) (stat_cmd (cid f)) in
  snd (Check f w) = after_command w (stat_cmd (cid f))
  /\ fst (Check f w) = cmd_Run o
  /\ (fst (Check f w) = None <-> start_error o = None /\ exit_error o = None)
  /\ (forall e, start_error o = Some e -> fst (Check f w) = Some e)
  /\ (forall e, start_error o = None -> exit_error o = Some e ->
      fst (Check f w) = Some e).
Proof.
  intros o.
  assert (Hc : Check f w = (cmd_Run o, after_command w (stat_cmd (cid f))))
    by reflexivity.
  rewrite Hc. cbn [fst snd]. unfold cmd_Run.
  split; [reflexivity|]. split; [reflexivity|].
  destruct (start_error o) as [e0|]; destruct (exit_error o) as [e1|];
    (split; [split; [intros H; try discriminate; auto
                    | intros [H1 H2]; try discriminate; auto]|]);
    (split; [intros e H; try discriminate; try congruence
            | intros e H1 H2; try discriminate; try congruence]).
Qed.

(** An object the store cannot reach. *)
Lemma Check_returns_query_error_witness :
  start_error (oracle world_unreachable
                 (List.length (issued world_unreachable))
                 (stat_cmd (cid sample_fetcher))) = None
  /\ exit_error (oracle world_unreachable
                   (List.length (issued world_unreachable))
                   (stat_cmd (cid sample_fetcher))) = Some (ExitError 1)
  /\ fst (Check sample_fetcher world_unreachable) = Some (ExitError 1).
Proof.
  split; [reflexivity|]. split; [reflexivity|].
  apply (proj2 (proj2 (proj2 (proj2
           (Check_returns_query_error sample_fetcher world_unreachable)))));
    reflexivity.
Defined.

(** ** [GenID] *)

Lemma length_fmt_x (bs : list byte) :
  String.length (fmt_x bs) = (2 * List.length bs)%nat.
Proof.
  induction bs as [|b0 bs IH]; [reflexivity|].
  cbn [fmt_x List.length]. unfold fmt_x_byte.
  cbn [String.append String.length]. rewrite IH. lia.
Qed.

Lemma length_be_bytes (k : nat) (x : Z) :
  List.length (SHA256.be_bytes k x) = k.
Proof.
  unfold SHA256.be_bytes. rewrite length_map, length_rev, length_seq.
  reflexivity.
Qed.

(** A SHA-256 sum has 32 bytes, as its Go type [[32]byte] says. *)
Lemma length_Sum256 (data : list byte) :
  List.length (SHA256.Sum256 data) = 32%nat.
Proof.
  unfold SHA256.Sum256, SHA256.bytes_of_digest.
  rewrite length_map, !length_app, !length_be_bytes. reflexivity.
Qed.

(** C8: [GenID] is a function of the CID, the offset and the length alone:
    it does not act on the world (it is no computation in [M]), two
    fetchers of one CID give the same identifier whatever size they are
    bound to, and the identifier always has 64 characters. *)
Theorem GenID_deterministic_fixed_length (f g : fetcher) (off sz : Z) :
  cid f = cid g ->
  GenID f off sz = GenID g off sz
  /\ String.length (GenID f off sz) = 64%nat.
Proof.
  intros H. split.
  - unfold GenID. rewrite H. reflexivity.
  - unfold GenID. rewrite length_fmt_x, length_Sum256. reflexivity.
Qed.

(** Two fetchers of [bafy123], bound to 10 and to 4 bytes. *)
Lemma GenID_deterministic_fixed_length_witness :
  cid sample_fetcher = cid short_fetcher
  /\ GenID sample_fetcher 0 500 = GenID short_fetcher 0 500
  /\ String.length (GenID sample_fetcher 0 500) = 64%nat.
Proof.
  split; [reflexivity|].
  apply (GenID_deterministic_fixed_length sample_fetcher short_fetcher 0 500).
  reflexivity.
Defined.

(** The identifier of the range [0, 500) of [bafy123]. *)
Example GenID_bafy123_0_500 :
  GenID sample_fetcher 0 500
  = "0664e89765dcab600ab9a54a7b38490dd78d9af97846680caf2f5f1c2f641395".
Proof. vm_compute. reflexivity. Qed.

(** ** What the stream holds when the store is honest *)

Lemma strip_prefix_app (p x : string) :
  strip_prefix p (p ++ x)%string = Some x.
Proof.
  induction p as [|a p IH]; simpl.
  - destruct x; reflexivity.
  - rewrite Ascii.eqb_refl. exact IH.
Qed.

Lemma flag_value_fmt_d (flag : string) (z : Z) :
  flag_value flag (flag ++ fmt_d z)%string = Some z.
Proof.
  unfold flag_value, fmt_d. rewrite strip_prefix_app.
  assert (Hn : Z.to_int z <> Decimal.Pos Decimal.Nil
               /\ Z.to_int z <> Decimal.Neg Decimal.Nil).
  { destruct z as [|q|q]; simpl; split; try discriminate;
      intros [= E]; exact (DecimalPos.Unsigned.to_uint_nonnil q E). }
  rewrite NilZero.isi by apply Hn. simpl. rewrite DecimalZ.of_to. reflexivity.
Qed.

(** The store answers a read of [Fetch] with the range asked for, cut
    short when there is trouble. *)
Lemma ipfs_cat_read (obj : list byte) (trouble : nat -> option (nat * string))
  (k : nat) (f : fetcher) (curoff sz : Z) :
  ipfs_cat obj trouble k (cat_cmd f curoff sz)
  = match trouble k with
    | Some (m, msg) => dies_after (firstn m (range obj curoff sz)) msg
    | None => prints (range obj curoff sz)
    end.
Proof.
  unfold ipfs_cat, cat_cmd, exec_Command. cbn [Args nth].
  rewrite !flag_value_fmt_d. reflexivity.
Qed.

Lemma firstn_app_skipn {A : Type} (a q : nat) (l : list A) :
  firstn a l ++ firstn q (skipn a l) = firstn (a + q) l.
Proof.
  revert l. induction a as [|a IH]; intros l; [reflexivity|].
  destruct l as [|x l]; simpl.
  - rewrite firstn_nil. reflexivity.
  - rewrite IH. reflexivity.
Qed.

Lemma firstn_length_firstn {A : Type} (m : nat) (l : list A) :
  firstn (List.length (firstn m l)) l = firstn m l.
Proof.
  rewrite length_firstn, <- firstn_firstn, firstn_all. reflexivity.
Qed.

(** What an honest store prints for a read is a prefix of the object from
    the offset of the read on. *)
Lemma ipfs_cat_stdout (obj : list byte)
  (trouble : nat -> option (nat * string)) (k : nat) (f : fetcher)
  (curoff sz : Z) :
  exists q : nat,
    stdout (ipfs_cat obj trouble k (cat_cmd f curoff sz))
    = firstn q (skipn (Z.to_nat curoff) obj).
Proof.
  rewrite ipfs_cat_read. unfold range.
  destruct (trouble k) as [[m msg]|]; cbn [stdout dies_after prints].
  - rewrite firstn_firstn. eexists. reflexivity.
  - eexists. reflexivity.
Qed.

(** One attempt against an honest store keeps the bytes received a prefix
    of the object from [off] on, when the cursor stands right behind
    them. *)
Lemma attempt_contiguous (f : fetcher) (off sz i curoff : Z) (pw : Pipe)
  (w : World) (obj : list byte) (trouble : nat -> option (nat * string))
  (m : nat) :
  oracle w = ipfs_cat obj trouble ->
  0 <= off ->
  curoff = off + len (received pw) ->
  received pw = firstn m (skipn (Z.to_nat off) obj) ->
  forall cont err c p w',
    attempt f off sz i curoff pw w = ((cont, err, c, p), w') ->
    exists m' : nat, received p = firstn m' (skipn (Z.to_nat off) obj).
Proof.
  intros Ho Hoff Hcur Hrec cont err c p w' Ha.
  apply attempt_spec in Ha.
  destruct Ha as (_ & _ & _ & n & _ & _ & Hr & _).
  unfold cat_outcome in Hr. rewrite Ho in Hr.
  destruct (ipfs_cat_stdout obj trouble (List.length (issued w)) f curoff sz)
    as (q & Hq).
  rewrite Hq, firstn_firstn in Hr.
  assert (Hsk : skipn (Z.to_nat curoff) obj
                = skipn (List.length (received pw))
                        (skipn (Z.to_nat off) obj)).
  { rewrite skipn_skipn. f_equal. subst curoff. unfold len. lia. }
  rewrite Hsk in Hr.
  assert (HL : received pw
               = firstn (List.length (received pw))
                        (skipn (Z.to_nat off) obj)).
  { rewrite Hrec. symmetry. apply firstn_length_firstn. }
  set (L := List.length (received pw)) in *.
  rewrite HL, firstn_app_skipn in Hr.
  eexists. exact Hr.
Qed.

(** Against an honest store, at every head the loop comes back to, the
    reader holds a prefix of the object from [off] on, in order and
    without a gap or a repeat, and the cursor stands right behind it. *)
Lemma retries_contiguous (f : fetcher) (off sz : Z) (obj : list byte)
  (trouble : nat -> option (nat * string)) (reader : option nat) (w : World)
  (h : Head) :
  oracle w = ipfs_cat obj trouble ->
  0 <= off <= max_int64 ->
  len obj <= max_int64 ->
  retries f off sz (start off reader w) h ->
  (exists m : nat,
     received (hd_pw h) = firstn m (skipn (Z.to_nat off) obj))
  /\ hd_curoff h = off + len (received (hd_pw h))
  /\ oracle (hd_world h) = ipfs_cat obj trouble.
Proof.
  intros Ho Hoff Hobj Hr.
  induction Hr as [|h1 c p w1 Hr IH Hstep].
  - cbn [start hd_pw hd_curoff hd_world io_Pipe received].
    split; [exists O; reflexivity|]. unfold len. simpl. split; [lia|exact Ho].
  - destruct IH as ((m & Hm) & Hc & Ho1).
    cbn [hd_pw hd_curoff hd_world].
    destruct (attempt_contiguous f off sz (hd_i h1) (hd_curoff h1) (hd_pw h1)
                (hd_world h1) obj trouble m Ho1 (proj1 Hoff) Hc Hm
                _ _ _ _ _ Hstep) as (m' & Hm').
    apply attempt_spec in Hstep.
    destruct Hstep as (_ & Hor & _ & n & Hn & _ & Hrec & Ht & _).
    destruct (Ht eq_refl) as (_ & _ & _ & Hcur & _).
    split; [exists m'; exact Hm'|]. split; [|congruence].
    assert (Hlen : len (received p) = len (received (hd_pw h1)) + n).
    { rewrite Hrec, len_app, len_firstn by exact Hn. reflexivity. }
    assert (Hfit : len (received p) <= len (skipn (Z.to_nat off) obj)).
    { rewrite Hm'. unfold len. rewrite length_firstn. lia. }
    assert (Hsk : off + len (skipn (Z.to_nat off) obj) <= max_int64).
    { unfold len in *. rewrite length_skipn. lia. }
    rewrite Hcur, Hc, Hlen, wrap64_id; [lia|].
    pose proof (len_nonneg (received (hd_pw h1))).
    unfold is_int64, min_int64, max_int64 in *. lia.
Qed.

(** Against an honest store, whatever trouble the reads run into, the
    stream of an accepted call holds a prefix of the object from [off] on: the bytes
    come in order, none twice and none left out. *)
Lemma Fetch_stream_contiguous (f : fetcher) (off sz : Z) (obj : list byte)
  (trouble : nat -> option (nat * string)) (reader : option nat) (w : World) :
  oracle w = ipfs_cat obj trouble ->
  0 <= off <= size f ->
  size f <= max_int64 ->
  len obj <= max_int64 ->
  exists (p : Pipe) (w' : World) (m : nat),
    Fetch f off sz reader w = (inr p, w')
    /\ received p = firstn m (skipn (Z.to_nat off) obj).
Proof.
  intros Ho Hoff Hsize Hobj.
  destruct (Fetch_closes_with_last_error f off sz reader w (proj2 Hoff))
    as (h & err & c & pw' & w' & p & Hr & Ha & Hf & Hrec & _).
  destruct (retries_contiguous f off sz obj trouble reader w h Ho)
    as ((m & Hm) & Hc & Ho1); [lia | exact Hobj | exact Hr |].
  destruct (attempt_contiguous f off sz (hd_i h) (hd_curoff h) (hd_pw h)
              (hd_world h) obj trouble m Ho1 (proj1 Hoff) Hc Hm
              _ _ _ _ _ Ha) as (m' & Hm').
  exists p, w', m'. split; [exact Hf|]. rewrite Hrec. exact Hm'.
Qed.

(** A reader that never closes its side stays that way. *)
Lemma io_CopyN_patience (dst : Pipe) (src : Reader) (n : Z) :
  forall k e dst', io_CopyN dst src n = (k, e, dst') ->
    patience dst = None -> patience dst' = None.
Proof.
  intros k e dst' H Hp. unfold io_CopyN, io_Copy, pw_Write in H.
  rewrite Hp in H.
  destruct (rd_data (io_LimitReader src n)) as [|x xs];
    destruct (werr dst); cbn in H;
    repeat match type of H with
           | context [if ?c then _ else _] => destruct c
           | context [match ?c with Some _ => _ | None => _ end] => destruct c
           end;
    injection H as _ _ <-; auto.
Qed.

Lemma attempt_patience (f : fetcher) (off sz i curoff : Z) (pw : Pipe)
  (w : World) :
  forall cont err c p w',
    attempt f off sz i curoff pw w = ((cont, err, c, p), w') ->
    patience pw = None -> patience p = None.
Proof.
  intros cont err c p w' H Hp. unfold attempt, bind, exec in H.
  set (o := oracle w (List.length (issued w)) (cat_cmd f curoff sz)) in H.
  unfold cmd_StdoutPipe, cmd_Start in H.
  destruct (pipe_error o); [injection H as _ _ _ <- _; exact Hp|].
  destruct (start_error o); [injection H as _ _ _ <- _; exact Hp|].
  destruct (io_CopyN pw {| rd_data := stdout o; rd_err := stdout_error o |} sz)
    as [[n e] p0] eqn:Hc.
  apply io_CopyN_patience in Hc; [|exact Hp].
  destruct e as [e|];
    [destruct ((i <? maxretry)
               && Contains (string_of_bytes (stderr o)) lock_marker)|];
    injection H as _ _ _ <- _; exact Hc.
Qed.

Lemma retries_patience (f : fetcher) (off sz : Z) (h0 h : Head) :
  retries f off sz h0 h ->
  patience (hd_pw h0) = None -> patience (hd_pw h) = None.
Proof.
  induction 1 as [|h1 c p w1 Hr IH Hstep]; intros Hp; [exact Hp|].
  cbn [hd_pw]. exact (attempt_patience _ _ _ _ _ _ _ _ _ _ _ _ Hstep (IH Hp)).
Qed.

(** [io.CopyN] from a source that ends cleanly into an open pipe whose
    reader takes everything. *)
Lemma io_CopyN_patient (dst : Pipe) (data : list byte) (n : Z) :
  werr dst = None -> patience dst = None ->
  exists e : option error,
    io_CopyN dst (mkReader data None) n
    = (Z.min (Z.max n 0) (len data), e,
       mkPipe (received dst ++ firstn (Z.to_nat n) data) None None)
    /\ (e = None \/ e = Some EOF).
Proof.
  intros Hw Hp. pose proof (len_nonneg data) as Hpos.
  destruct (Z.lt_ge_cases (len data) n) as [Hshort|Hlong].
  - exists (Some EOF). rewrite io_CopyN_short_source by assumption.
    rewrite firstn_all2 by (unfold len in *; lia).
    replace (Z.min (Z.max n 0) (len data)) with (len data) by lia. auto.
  - exists None. split; [|auto].
    unfold io_CopyN, io_LimitReader. cbn [rd_data rd_err].
    destruct (n <=? 0) eqn:H0; [apply Z.leb_le in H0|apply Z.leb_gt in H0].
    + unfold io_Copy. cbn [rd_data rd_err].
      replace (Z.to_nat n) with O by lia. cbn [firstn]. rewrite app_nil_r.
      replace (Z.min (Z.max n 0) (len data)) with 0 by lia.
      destruct dst as [r pt we]. cbn [werr patience received] in *. subst.
      destruct (0 =? n) eqn:E; [apply Z.eqb_eq in E; subst; reflexivity|].
      destruct (0 <? n) eqn:E'; [apply Z.ltb_lt in E'; lia|reflexivity].
    + apply Z.leb_le in Hlong. rewrite Hlong. apply Z.leb_le in Hlong.
      unfold io_Copy. cbn [rd_data rd_err].
      assert (Hl : len (firstn (Z.to_nat n) data) = n)
        by (apply len_firstn; lia).
      destruct (firstn (Z.to_nat n) data) as [|x xs] eqn:Hd.
      * unfold len in Hl. simpl in Hl. lia.
      * unfold pw_Write. rewrite Hw, Hp. rewrite Hl, Z.eqb_refl.
        replace (Z.min (Z.max n 0) (len data)) with n by lia. reflexivity.
Qed.

(** Against an honest store, when the
    attempt that ends the call is the first to deliver anything and runs
    without trouble, a stream read to its end yields exactly the bytes
    [off, off+sz) of the object (as far as the object reaches) and a clean
    end, whatever number of retries came before. *)
Lemma Fetch_exact_unless_resumed_midway (f : fetcher) (off sz : Z)
  (obj : list byte) (trouble : nat -> option (nat * string)) (w : World) :
  oracle w = ipfs_cat obj trouble ->
  is_int64 off ->
  off <= size f ->
  exists (h : Head) (err : option error) (c : Z) (pw' : Pipe) (p : Pipe)
         (w' : World),
    retries f off sz (start off None w) h
    /\ attempt f off sz (hd_i h) (hd_curoff h) (hd_pw h) (hd_world h)
       = ((false, err, c, pw'), w')
    /\ Fetch f off sz None w = (inr p, w')
    /\ (received (hd_pw h) = [] ->
        trouble (List.length (issued (hd_world h))) = None ->
        io_ReadAll p = Some (range obj off sz, None)).
Proof.
  intros Ho H64 Hoff.
  destruct (Fetch_closes_with_last_error f off sz None w Hoff)
    as (h & err & c & pw' & w' & p & Hr & Ha & Hf & Hrec & Hclose).
  exists h, err, c, pw', p, w'. repeat split; auto.
  intros Hempty Hfree.
  pose proof (retries_patience f off sz _ _ Hr eq_refl) as Hpat.
  pose proof (retries_inv f off sz _ _ Hr) as Hinv.
  destruct Hinv as (_ & extra & _ & _ & _ & _ & Hor & Hw & Hd & Hc).
  cbn [start hd_pw hd_curoff hd_world io_Pipe received werr] in Hor, Hw, Hd, Hc.
  rewrite app_nil_l in Hd. rewrite Hempty in Hd. subst extra.
  specialize (Hc H64). unfold len in Hc. cbn in Hc.
  rewrite Z.add_0_r, wrap64_id in Hc by exact H64.
  unfold attempt, bind, exec in Ha.
  rewrite Hor, Ho, Hc, ipfs_cat_read, Hfree in Ha.
  cbn [cmd_StdoutPipe cmd_Start prints pipe_error start_error stdout
       stdout_error stderr] in Ha.
  destruct (io_CopyN_patient (hd_pw h) (range obj off sz) sz Hw Hpat)
    as (e & He & Hcase).
  rewrite He in Ha. rewrite Hempty in Ha.
  assert (Hall : firstn (Z.to_nat sz) (range obj off sz) = range obj off sz).
  { unfold range. rewrite firstn_firstn, Nat.min_id. reflexivity. }
  rewrite Hall in Ha. cbn [app] in Ha.
  assert (Hres : received pw' = range obj off sz
                 /\ (err = None \/ err = Some EOF)).
  { destruct Hcase as [-> | ->].
    - cbn in Ha. injection Ha as <- _ <- _. auto.
    - replace (Contains (string_of_bytes []) lock_marker) with false in Ha
        by reflexivity.
      rewrite andb_false_r in Ha. cbn in Ha. injection Ha as <- _ <- _. auto. }
  destruct Hres as (Hbytes & Herr).
  unfold io_ReadAll. rewrite Hclose, Hrec, Hbytes.
  destruct Herr as [-> | ->]; reflexivity.
Qed.

(** ** Runs against an honest store *)

(** [Fetch(0, 500)] on a blob of 1000 bytes in a store without trouble:
    one read, the first 500 bytes, a clean end. *)
Example Fetch_first_half :
  exists (p : Pipe) (w' : World),
    Fetch large_fetcher 0 500 None world_untroubled = (inr p, w')
    /\ map Args (issued w')
       = [["ipfs"; "cat"; "--offset=0"; "--length=500"; "bafy123"]]
    /\ io_ReadAll p = Some (range large_object 0 500, None)
    /\ len (range large_object 0 500) = 500.
Proof.
  eexists. eexists. split; [vm_compute; reflexivity|].
  repeat (split; [vm_compute; reflexivity|]). vm_compute. reflexivity.
Qed.

(** Three reads refused before any output, then a good one: four reads at
    the same offset, three seconds of sleep, and the exact range. *)
Example Fetch_after_three_refusals :
  exists (p : Pipe) (w' : World),
    Fetch sample_fetcher 2 5 None world_refused_thrice = (inr p, w')
    /\ map Args (issued w')
       = repeat ["ipfs"; "cat"; "--offset=2"; "--length=5"; "bafy123"] 4
    /\ slept w' = 3 * time_Second
    /\ io_ReadAll p = Some (range sample_object 2 5, None).
Proof.
  eexists. eexists. split; [vm_compute; reflexivity|].
  repeat (split; [vm_compute; reflexivity|]). vm_compute. reflexivity.
Qed.

(** A reader that closes its side after three bytes: the copy fails with
    [io.ErrClosedPipe], and the reader holds the first three bytes. *)
Example Fetch_reader_gives_up :
  exists (p : Pipe) (w' : World),
    Fetch large_fetcher 0 8 (Some 3%nat) world_untroubled = (inr p, w')
    /\ received p = range large_object 0 3
    /\ werr p = Some ErrClosedPipe.
Proof.
  eexists. eexists. split; [vm_compute; reflexivity|].
  repeat (split; [vm_compute; reflexivity|]). vm_compute. reflexivity.
Qed.

(** ** Test vectors *)

Example Sum256_abc :
  fmt_x (SHA256.Sum256 (bytes_of_string "abc"))
  = "ba7816bf8f01cfea414140de5dae2223b00361a396177a9cb410ff61f20015ad".
Proof. vm_compute. reflexivity. Qed.

Example Sum256_empty :
  fmt_x (SHA256.Sum256 [])
  = "e3b0c44298fc1c149afbf4c8996fb92427ae41e4649b934ca495991b7852b855".
Proof. vm_compute. reflexivity. Qed.

Example Sum256_two_blocks :
  fmt_x (SHA256.Sum256
           (bytes_of_string
              "abcdbcdecdefdefgefghfghighijhijkijkljklmklmnlmnomnopnopq"))
  = "248d6a61d20638b8e5c026930c3e6039a33ce45964ff2167f6ecedd419db06c1".
Proof. vm_compute. reflexivity. Qed.

Example K_first_last :
  List.length SHA256.K = 64%nat
  /\ nth 0 SHA256.K 0 = 0x428a2f98 /\ nth 63 SHA256.K 0 = 0xc67178f2.
Proof. repeat split. Qed.

Example ParseInt_size : ParseInt "1000" = inr 1000.
Proof. reflexivity. Qed.

Example ParseInt_min : ParseInt "-9223372036854775808" = inr min_int64.
Proof. reflexivity. Qed.

Example ParseInt_out_of_range :
  ParseInt "9223372036854775808"
  = inl (NumError "ParseInt" "9223372036854775808" ErrRange).
Proof. reflexivity. Qed.

Example ParseInt_not_a_number :
  ParseInt "12a" = inl (NumError "ParseInt" "12a" ErrSyntax).
Proof. reflexivity. Qed.

Example TrimSuffix_newline :
  TrimSuffix ("1000" ++ newline)%string newline = "1000".
Proof. reflexivity. Qed.

Example fmt_d_negative : fmt_d (-5) = "-5".
Proof. reflexivity. Qed.

(** * Further properties of the code *)

(** ** The effects of one attempt *)

(** An attempt whose command does not get to run reports the error and
    changes nothing but the list of commands issued. *)
Lemma attempt_not_started (f : fetcher) (off sz i curoff : Z) (pw : Pipe)
  (w : World) (e : error) :
  let o := cat_outcome f sz curoff w in
  pipe_error o = Some e \/ (pipe_error o = None /\ start_error o = Some e) ->
  attempt f off sz i curoff pw w
  = ((false, Some e, curoff, pw), after_command w (cat_cmd f curoff sz)).
Proof.
  intros o H. unfold attempt, bind, exec. fold (cat_outcome f sz curoff w).
  fold o. unfold cmd_StdoutPipe, cmd_Start.
  destruct H as [H | [H1 H2]].
  - rewrite H. reflexivity.
  - rewrite H1, H2. reflexivity.
Qed.

(** An attempt whose command runs, by the result of its copy. *)
Lemma attempt_started (f : fetcher) (off sz i curoff : Z) (pw : Pipe)
  (w : World) :
  let o := cat_outcome f sz curoff w in
  let c := cat_cmd f curoff sz in
  let sb := string_of_bytes (stderr o) in
  started o = true ->
  attempt f off sz i curoff pw w
  = match io_CopyN pw (mkReader (stdout o) (stdout_error o)) sz with
    | (n, Some e, pw') =>
        if (i <? maxretry) && Contains sb lock_marker then
          ((true, None, wrap64 (curoff + n), pw'),
           after_attempt w c time_Second
             [mkLogEntry retry_format e sb (cid f) off sz n i maxretry])
        else
          ((false, Some e, curoff, pw'),
           after_attempt w c 0
             [mkLogEntry fail_format e sb (cid f) off sz n i maxretry])
    | (n, None, pw') =>
        ((false, None, curoff, pw'), after_attempt w c 0 [])
    end.
Proof.
  intros o c sb H. unfold started in H.
  destruct (pipe_error o) eqn:Hp; [discriminate|].
  destruct (start_error o) eqn:Hs; [discriminate|].
  unfold attempt, bind, exec. fold (cat_outcome f sz curoff w). fold o.
  unfold cmd_StdoutPipe, cmd_Start. rewrite Hp, Hs.
  destruct (io_CopyN pw {| rd_data := stdout o; rd_err := stdout_error o |} sz)
    as [[n e] p0].
  unfold after_attempt. fold c. fold sb.
  destruct e as [e|].
  - destruct ((i <? maxretry) && Contains sb lock_marker); cbn;
      rewrite ?Z.add_0_r; reflexivity.
  - cbn. rewrite Z.add_0_r, app_nil_r. reflexivity.
Qed.

(** What an attempt leaves to the reaper: its command if it ran, and
    nothing otherwise; and an attempt never asks for a retry of a command
    that did not run. *)
Lemma attempt_reaping (f : fetcher) (off sz i curoff : Z) (pw : Pipe)
  (w : World) :
  forall cont err c p w',
    attempt f off sz i curoff pw w = ((cont, err, c, p), w') ->
    reaping w'
    = reaping w
      ++ (if started (cat_outcome f sz curoff w)
          then [List.length (issued w)] else [])
    /\ (cont = true -> started (cat_outcome f sz curoff w) = true).
Proof.
  intros cont err c p w' H.
  destruct (started (cat_outcome f sz curoff w)) eqn:Hs.
  - rewrite attempt_started in H by exact Hs.
    destruct (io_CopyN pw _ sz) as [[n e] p0].
    destruct e as [e|];
      [destruct ((i <? maxretry) && Contains _ lock_marker)|];
      injection H as _ _ _ _ <-; auto.
  - assert (He : exists e,
               pipe_error (cat_outcome f sz curoff w) = Some e
               \/ (pipe_error (cat_outcome f sz curoff w) = None
                   /\ start_error (cat_outcome f sz curoff w) = Some e)).
    { unfold started in Hs.
      destruct (pipe_error (cat_outcome f sz curoff w)) as [e|];
        [exists e; auto|].
      destruct (start_error (cat_outcome f sz curoff w)) as [e|];
        [exists e; auto | discriminate]. }
    destruct He as (e & He).
    rewrite (attempt_not_started f off sz i curoff pw w e He) in H.
    injection H as <- _ _ _ <-. cbn. rewrite app_nil_r.
    split; [reflexivity | discriminate].
Qed.

(** ** The effects of a whole call *)

Lemma ran_cons (w : World) (n0 : nat) (c : Cmd) (l : list Cmd) :
  ran w n0 (c :: l)
  = (if started (oracle w n0 c) then [n0] else []) ++ ran w (S n0) l.
Proof.
  unfold ran.
  change (seq n0 (List.length (c :: l)))
    with (n0 :: seq (S n0) (List.length l)).
  cbn [filter].
  rewrite (filter_ext_in
             (fun k => started
                (oracle w k (nth (k - n0) (c :: l) (mkCmd "" []))))
             (fun k => started
                (oracle w k (nth (k - S n0) l (mkCmd "" []))))
             (seq (S n0) (List.length l))).
  - rewrite Nat.sub_diag. cbn [nth].
    destruct (started (oracle w n0 c)); reflexivity.
  - intros k Hk. apply in_seq in Hk.
    replace (k - n0)%nat with (S (k - S n0)) by lia. reflexivity.
Qed.

Lemma ran_oracle (w w1 : World) (n0 : nat) (l : list Cmd) :
  oracle w1 = oracle w -> ran w1 n0 l = ran w n0 l.
Proof. intros H. unfold ran. rewrite H. reflexivity. Qed.

Lemma received_close (p : Pipe) (err : option error) :
  received (pw_CloseWithError p err) = received p.
Proof. unfold pw_CloseWithError. destruct (werr p); reflexivity. Qed.

(** ** The cursor across retries *)

Lemma wrap64_range (z : Z) : is_int64 (wrap64 z).
Proof.
  unfold is_int64, min_int64, max_int64, wrap64.
  pose proof (Z.mod_pos_bound (z + 2 ^ 63) (2 ^ 64) ltac:(lia)). lia.
Qed.

Lemma len_concat_firstn_le (k : nat) (chunks : list (list byte)) :
  0 <= len (List.concat (firstn k chunks)) <= len (List.concat chunks).
Proof.
  revert k. induction chunks as [|ch chunks IH]; intros k.
  - rewrite firstn_nil. cbn [List.concat]. change (len (@nil byte)) with 0.
    lia.
  - destruct k as [|k]; cbn [firstn List.concat].
    + pose proof (len_nonneg (ch ++ List.concat chunks)).
      change (len (@nil byte)) with 0. lia.
    + rewrite !len_app. specialize (IH k). pose proof (len_nonneg ch). lia.
Qed.

(** The commands of a run of the loop that starts with the cursor at
    [curoff] and delivers [chunks], one chunk for each attempt that is
    retried: the [k]-th is the read at [curoff] plus the bytes of the first
    [k] chunks. *)
Lemma cursor_commands_cons (f : fetcher) (sz curoff : Z)
  (ch : list byte) (chunks : list (list byte)) :
  is_int64 curoff ->
  map (fun k => cat_cmd f
                  (wrap64 (curoff + len (List.concat (firstn k (ch :: chunks)))))
                  sz)
      (seq 0 (S (S (List.length chunks))))
  = cat_cmd f curoff sz
    :: map (fun k => cat_cmd f
                       (wrap64 (wrap64 (curoff + len ch)
                                + len (List.concat (firstn k chunks))))
                       sz)
           (seq 0 (S (List.length chunks))).
Proof.
  intros H64.
  change (seq 0 (S (S (List.length chunks))))
    with (0%nat :: seq 1 (S (List.length chunks))).
  rewrite <- seq_shift, map_cons, map_map. f_equal.
  - cbn [firstn List.concat]. unfold len. cbn [List.length Z.of_nat].
    rewrite Z.add_0_r, wrap64_id by exact H64. reflexivity.
  - apply map_ext. intros k. cbn [firstn List.concat].
    rewrite wrap64_add_l, len_app. do 2 f_equal. lia.
Qed.

(** A run of the loop, told by what each attempt delivered.  The reader
    receives the chunks of the retried attempts and then that of the last
    attempt; each chunk is the beginning of what the command of its attempt
    printed; and the command of the [k]-th attempt is the read at the
    cursor moved by the bytes of the chunks before it. *)
Lemma loop_trace (f : fetcher) (off sz : Z) (fuel : nat) :
  forall (i curoff : Z) (pw : Pipe) (w : World),
    is_int64 curoff ->
    0 <= i <= maxretry ->
    (Z.to_nat (maxretry - i) < fuel)%nat ->
    exists (chunks : list (list byte)) (last : list byte),
      received (fst (loop fuel f off sz i curoff pw w))
      = received pw ++ List.concat chunks ++ last
      /\ issued (snd (loop fuel f off sz i curoff pw w))
         = issued w
           ++ map (fun k => cat_cmd f
                              (wrap64 (curoff
                                       + len (List.concat (firstn k chunks))))
                              sz)
                  (seq 0 (S (List.length chunks)))
      /\ forall k, (k <= List.length chunks)%nat ->
           nth k (chunks ++ [last]) []
           = firstn (List.length (nth k (chunks ++ [last]) []))
               (stdout
                  (oracle w (List.length (issued w) + k)
                     (cat_cmd f
                        (wrap64 (curoff + len (List.concat (firstn k chunks))))
                        sz))).
Proof.
  induction fuel as [|fuel IH]; intros i curoff pw w H64 Hi Hfuel; [lia|].
  rewrite loop_S.
  destruct (attempt f off sz i curoff pw w) as [[[[cont err] c] p] w1] eqn:Ha.
  apply attempt_spec in Ha.
  destruct Ha as (Si & So & _ & n & Sn & _ & Sr & St & _).
  unfold cat_outcome in Sn, Sr.
  set (out := stdout (oracle w (List.length (issued w))
                        (cat_cmd f curoff sz))) in *.
  set (ch := firstn (Z.to_nat n) out) in *.
  assert (Hch : ch = firstn (List.length ch) out)
    by (symmetry; apply firstn_length_firstn).
  assert (Hlen : len ch = n) by (apply len_firstn; exact Sn).
  assert (H0 : wrap64 (curoff + len (@List.concat byte (firstn 0 []))) = curoff).
  { cbn [firstn List.concat]. unfold len. cbn [List.length Z.of_nat].
    rewrite Z.add_0_r. apply wrap64_id. exact H64. }
  destruct cont.
  - destruct (St eq_refl) as (-> & Hlt & _ & -> & _).
    destruct (IH (i + 1) (wrap64 (curoff + n)) p w1 (wrap64_range _))
      as (chunks & last & Hr & Hi1 & Ho); [lia|lia|].
    exists (ch :: chunks), last. split; [|split].
    + rewrite Hr, Sr. cbn [List.concat]. rewrite <- !app_assoc. reflexivity.
    + rewrite Hi1, Si, <- app_assoc. cbn [List.length].
      rewrite cursor_commands_cons, Hlen by exact H64. reflexivity.
    + intros k Hk. destruct k as [|k].
      * cbn [app nth firstn List.concat]. rewrite Nat.add_0_r.
        unfold len at 1. cbn [List.length Z.of_nat].
        rewrite Z.add_0_r, wrap64_id by exact H64. exact Hch.
      * cbn [app nth firstn List.concat List.length] in *.
        rewrite (Ho k) at 1 by lia.
        rewrite So, Si, length_app, wrap64_add_l, len_app, Hlen.
        cbn [List.length].
        replace (List.length (issued w) + 1 + k)%nat
          with (List.length (issued w) + S k)%nat by lia.
        replace (curoff + n + len (List.concat (firstn k chunks)))
          with (curoff + (n + len (List.concat (firstn k chunks)))) by lia.
        reflexivity.
  - assert (Hfin : exists (chunks : list (list byte)) (last : list byte),
               received p = received pw ++ List.concat chunks ++ last
               /\ issued w1
                  = issued w
                    ++ map (fun k => cat_cmd f
                                       (wrap64 (curoff
                                                + len (List.concat
                                                         (firstn k chunks))))
                                       sz)
                           (seq 0 (S (List.length chunks)))
               /\ forall k, (k <= List.length chunks)%nat ->
                    nth k (chunks ++ [last]) []
                    = firstn (List.length (nth k (chunks ++ [last]) []))
                        (stdout
                           (oracle w (List.length (issued w) + k)
                              (cat_cmd f
                                 (wrap64 (curoff
                                          + len (List.concat (firstn k chunks))))
                                 sz)))).
    { exists [], ch. split; [|split].
      - rewrite Sr. reflexivity.
      - rewrite Si. cbn [List.length seq map]. rewrite H0. reflexivity.
      - intros k Hk. cbn [List.length] in Hk.
        replace k with O by lia. cbn [app nth]. rewrite Nat.add_0_r, H0.
        exact Hch. }
    destruct err; cbn [fst snd]; unfold pw_Close; rewrite received_close;
      exact Hfin.
Qed.

(** C3, as amended.  One round of the loop: when the copy of an attempt
    fails after [n] bytes with the lock marker in the buffer of standard
    error and the counter below the ceiling, the loop goes on to the next
    attempt with the cursor moved by exactly [n], the number of bytes that
    attempt delivered.  The whole call: the reader receives, in order,
    what the retried attempts delivered and then what the last attempt
    delivered, each chunk the beginning of what the command of its attempt
    printed; the command of the [k]-th attempt asks for the offset of the
    call plus the bytes delivered by the attempts before it, in [int64]
    arithmetic; and it asks for exactly that sum whenever the sum over all
    retried attempts does not exceed the largest [int64]. *)
Theorem retry_cursor_tracks_delivered (f : fetcher) (off sz : Z) :
  (forall (fuel : nat) (i curoff : Z) (pw : Pipe) (w : World) (n : Z)
          (e : error) (pw' : Pipe),
     started (cat_outcome f sz curoff w) = true ->
     io_CopyN pw
       (mkReader (stdout (cat_outcome f sz curoff w))
                 (stdout_error (cat_outcome f sz curoff w)))
       sz = (n, Some e, pw') ->
     Contains (string_of_bytes (stderr (cat_outcome f sz curoff w)))
              lock_marker = true ->
     i < maxretry ->
     len (received pw') = len (received pw) + n
     /\ loop (S fuel) f off sz i curoff pw w
        = loop fuel f off sz (i + 1) (wrap64 (curoff + n)) pw'
            (after_attempt w (cat_cmd f curoff sz) time_Second
               [mkLogEntry retry_format e
                  (string_of_bytes (stderr (cat_outcome f sz curoff w)))
                  (cid f) off sz n i maxretry]))
  /\ (forall (reader : option nat) (w : World),
        is_int64 off ->
        off <= size f ->
        exists (p : Pipe) (w' : World) (chunks : list (list byte))
               (last : list byte),
          Fetch f off sz reader w = (inr p, w')
          /\ received p = List.concat chunks ++ last
          /\ issued w'
             = issued w
               ++ map (fun k => cat_cmd f
                                  (wrap64 (off
                                           + len (List.concat (firstn k chunks))))
                                  sz)
                      (seq 0 (S (List.length chunks)))
          /\ (forall k, (k <= List.length chunks)%nat ->
                nth k (chunks ++ [last]) []
                = firstn (List.length (nth k (chunks ++ [last]) []))
                    (stdout
                       (oracle w (List.length (issued w) + k)
                          (cat_cmd f
                             (wrap64 (off
                                      + len (List.concat (firstn k chunks))))
                             sz))))
          /\ (off + len (List.concat chunks) <= max_int64 ->
              issued w'
              = issued w
                ++ map (fun k => cat_cmd f
                                   (off + len (List.concat (firstn k chunks)))
                                   sz)
                       (seq 0 (S (List.length chunks))))).
Proof.
  split.
  - intros fuel i curoff pw w n e pw' Hs Hc Hm Hi. split.
    + apply io_CopyN_spec in Hc. cbn [rd_data] in Hc.
      destruct Hc as (Hrec & Hn & _).
      rewrite Hrec, len_app, len_firstn by exact Hn. reflexivity.
    + rewrite loop_S, attempt_started by exact Hs. rewrite Hc, Hm.
      apply Z.ltb_lt in Hi. rewrite Hi. reflexivity.
  - intros reader w H64 Hoff. rewrite Fetch_accepted by exact Hoff.
    destruct (loop_trace f off sz (S (Z.to_nat maxretry)) 0 off
                (io_Pipe reader) w H64)
      as (chunks & last & Hr & Hi & Ho);
      [unfold maxretry; lia | unfold maxretry; lia |].
    destruct (loop (S (Z.to_nat maxretry)) f off sz 0 off (io_Pipe reader) w)
      as [p w'].
    cbn [fst snd io_Pipe received app] in *.
    exists p, w', chunks, last.
    split; [reflexivity|]. split; [exact Hr|]. split; [exact Hi|].
    split; [exact Ho|].
    intros Hfit. rewrite Hi. f_equal. apply map_ext. intros k.
    pose proof (len_concat_firstn_le k chunks) as Hk.
    rewrite wrap64_id; [reflexivity|].
    unfold is_int64, min_int64, max_int64 in *. lia.
Qed.

(** [Fetch sample_fetcher 0 4] with the lock held twice in a row.  The
    first round delivers two bytes and leads to the second round with the
    cursor at 2; the whole call delivers chunks of two bytes and of one
    byte, then the last four. *)
Lemma retry_cursor_tracks_delivered_witness :
  (started (cat_outcome sample_fetcher 4 0 world_locked_twice) = true
   /\ io_CopyN (io_Pipe None)
        (mkReader
           (stdout (cat_outcome sample_fetcher 4 0 world_locked_twice))
           (stdout_error (cat_outcome sample_fetcher 4 0 world_locked_twice)))
        4
      = (2, Some EOF, mkPipe (range sample_object 0 2) None None)
   /\ Contains
        (string_of_bytes
           (stderr (cat_outcome sample_fetcher 4 0 world_locked_twice)))
        lock_marker = true
   /\ 0 < maxretry
   /\ len (received (mkPipe (range sample_object 0 2) None None))
      = len (received (io_Pipe None)) + 2
   /\ loop 101 sample_fetcher 0 4 0 0 (io_Pipe None) world_locked_twice
      = loop 100 sample_fetcher 0 4 (0 + 1) (wrap64 (0 + 2))
          (mkPipe (range sample_object 0 2) None None)
          (after_attempt world_locked_twice (cat_cmd sample_fetcher 0 4)
             time_Second
             [mkLogEntry retry_format EOF
                (string_of_bytes
                   (stderr
                      (cat_outcome sample_fetcher 4 0 world_locked_twice)))
                (cid sample_fetcher) 0 4 2 0 maxretry]))
  /\ is_int64 0
  /\ 0 <= size sample_fetcher
  /\ exists (p : Pipe) (w' : World) (chunks : list (list byte))
            (last : list byte),
       Fetch sample_fetcher 0 4 None world_locked_twice = (inr p, w')
       /\ received p = List.concat chunks ++ last
       /\ issued w'
          = issued world_locked_twice
            ++ map (fun k => cat_cmd sample_fetcher
                               (wrap64
                                  (0 + len (List.concat (firstn k chunks))))
                               4)
                   (seq 0 (S (List.length chunks)))
       /\ (forall k, (k <= List.length chunks)%nat ->
             nth k (chunks ++ [last]) []
             = firstn (List.length (nth k (chunks ++ [last]) []))
                 (stdout
                    (oracle world_locked_twice
                       (List.length (issued world_locked_twice) + k)
                       (cat_cmd sample_fetcher
                          (wrap64
                             (0 + len (List.concat (firstn k chunks))))
                          4))))
       /\ (0 + len (List.concat chunks) <= max_int64 ->
           issued w'
           = issued world_locked_twice
             ++ map (fun k => cat_cmd sample_fetcher
                                (0 + len (List.concat (firstn k chunks))) 4)
                    (seq 0 (S (List.length chunks)))).
Proof.
  assert (H1 : started (cat_outcome sample_fetcher 4 0 world_locked_twice)
               = true) by reflexivity.
  assert (H2 : io_CopyN (io_Pipe None)
                 (mkReader
                    (stdout
                       (cat_outcome sample_fetcher 4 0 world_locked_twice))
                    (stdout_error
                       (cat_outcome sample_fetcher 4 0 world_locked_twice)))
                 4
               = (2, Some EOF, mkPipe (range sample_object 0 2) None None))
    by (vm_compute; reflexivity).
  assert (H3 : Contains
                 (string_of_bytes
                    (stderr
                       (cat_outcome sample_fetcher 4 0 world_locked_twice)))
                 lock_marker = true) by (vm_compute; reflexivity).
  assert (H4 : 0 < maxretry) by (unfold maxretry; lia).
  assert (H64 : is_int64 0)
    by (unfold is_int64, min_int64, max_int64; lia).
  assert (Hoff : 0 <= size sample_fetcher) by (simpl; lia).
  split.
  - split; [exact H1|]. split; [exact H2|]. split; [exact H3|].
    split; [exact H4|].
    exact (proj1 (retry_cursor_tracks_delivered sample_fetcher 0 4)
                 100%nat 0 0 (io_Pipe None) world_locked_twice 2 EOF
                 (mkPipe (range sample_object 0 2) None None)
                 H1 H2 H3 H4).
  - split; [exact H64|]. split; [exact Hoff|].
    exact (proj2 (retry_cursor_tracks_delivered sample_fetcher 0 4)
                 None world_locked_twice H64 Hoff).
Defined.

(** C3, the counterexample: the offset of a retry is not always the sum.
    [Fetch huge_fetcher] at the last offset but one of [int64], length 4:
    the first read delivers two bytes and is retried, and the second read
    asks for the smallest [int64], not for the offset plus two. *)
Lemma retry_cursor_wraps_beyond_max_int64 :
  exists (p : Pipe) (w' : World),
    Fetch huge_fetcher (max_int64 - 1) 4 None world_far_end = (inr p, w')
    /\ map lg_n (debug w') = [2]
    /\ map Args (issued w')
       = [["ipfs"; "cat"; "--offset=9223372036854775806"; "--length=4";
           "bafy123"];
          ["ipfs"; "cat"; "--offset=-9223372036854775808"; "--length=4";
           "bafy123"]]
    /\ ("--offset=" ++ fmt_d (max_int64 - 1 + 2))%string
       = "--offset=9223372036854775808"
    /\ nth 1 (issued w') (cat_cmd huge_fetcher 0 0)
       <> cat_cmd huge_fetcher (max_int64 - 1 + 2) 4.
Proof.
  eexists. eexists. split; [vm_compute; reflexivity|].
  repeat (split; [vm_compute; reflexivity|]). vm_compute. discriminate.
Qed.

(** What the loop does to the world and to the pipe, with fuel for the
    retries that are left. *)
Lemma loop_effects (f : fetcher) (off sz : Z) (fuel : nat) :
  forall (i curoff : Z) (pw : Pipe) (w : World),
    0 <= i <= maxretry ->
    (Z.to_nat (maxretry - i) < fuel)%nat ->
    exists rest : list Cmd,
      issued (snd (loop fuel f off sz i curoff pw w))
      = issued w ++ cat_cmd f curoff sz :: rest
      /\ len rest <= maxretry - i
      /\ slept (snd (loop fuel f off sz i curoff pw w))
         = slept w + len rest * time_Second
      /\ reaping (snd (loop fuel f off sz i curoff pw w))
         = reaping w
           ++ ran w (List.length (issued w)) (cat_cmd f curoff sz :: rest)
      /\ len (received (fst (loop fuel f off sz i curoff pw w)))
         <= len (received pw) + (1 + len rest) * Z.max sz 0.
Proof.
  induction fuel as [|fuel IH]; intros i curoff pw w Hi Hfuel; [lia|].
  rewrite loop_S.
  destruct (attempt f off sz i curoff pw w) as [[[[cont err] c] p] w1] eqn:Ha.
  pose proof (attempt_reaping _ _ _ _ _ _ _ _ _ _ _ _ Ha) as (Hreap & Hran).
  apply attempt_spec in Ha.
  destruct Ha as (Si & So & _ & n & Sn & Sm & Sr & St & Sf & _).
  assert (Hlen : len (received p) = len (received pw) + n).
  { rewrite Sr, len_app, len_firstn by exact Sn. reflexivity. }
  assert (Hmax : 0 <= Z.max sz 0) by lia.
  destruct cont.
  - destruct (St eq_refl) as (-> & Hlt & _ & _ & Hsl).
    destruct (IH (i + 1) c p w1) as (rest & Hr & Hn & Hs & Hp & Hd);
      [lia|lia|].
    exists (cat_cmd f c sz :: rest).
    assert (Hl : len (cat_cmd f c sz :: rest) = 1 + len rest).
    { unfold len. cbn [List.length]. rewrite Nat2Z.inj_succ. lia. }
    rewrite Hl. split; [rewrite Hr, Si, <- app_assoc; reflexivity|].
    split; [lia|]. split; [rewrite Hs, Hsl; lia|]. split.
    + rewrite Hp, Hreap, (Hran eq_refl).
      rewrite (ran_cons w (List.length (issued w)) (cat_cmd f curoff sz)).
      unfold cat_outcome in Hran. rewrite (Hran eq_refl).
      rewrite (ran_oracle w w1) by exact So.
      rewrite Si, length_app, <- app_assoc. cbn [List.length app].
      rewrite Nat.add_1_r. reflexivity.
    + rewrite Hlen in Hd. nia.
  - destruct (Sf eq_refl) as (_ & Hsl).
    assert (Hfin : exists rest : list Cmd,
               issued w1 = issued w ++ cat_cmd f curoff sz :: rest
               /\ len rest <= maxretry - i
               /\ slept w1 = slept w + len rest * time_Second
               /\ reaping w1
                  = reaping w
                    ++ ran w (List.length (issued w))
                         (cat_cmd f curoff sz :: rest)
               /\ len (received p)
                  <= len (received pw) + (1 + len rest) * Z.max sz 0).
    { exists []. unfold len at 1 2 5. cbn [List.length Z.of_nat].
      split; [exact Si|]. split; [lia|]. split; [lia|]. split.
      - rewrite Hreap, ran_cons. unfold ran, cat_outcome. cbn.
        rewrite app_nil_r. reflexivity.
      - lia. }
    destruct err; cbn [fst snd]; unfold pw_Close; rewrite received_close;
      exact Hfin.
Qed.

(** What an accepted call does to the world and to the stream. *)
Lemma Fetch_effects (f : fetcher) (off sz : Z) (reader : option nat)
  (w : World) :
  off <= size f ->
  exists (p : Pipe) (w' : World) (rest : list Cmd),
    Fetch f off sz reader w = (inr p, w')
    /\ issued w' = issued w ++ cat_cmd f off sz :: rest
    /\ len rest <= maxretry
    /\ slept w' = slept w + len rest * time_Second
    /\ reaping w'
       = reaping w ++ ran w (List.length (issued w)) (cat_cmd f off sz :: rest)
    /\ len (received p) <= (1 + len rest) * Z.max sz 0.
Proof.
  intros H. rewrite Fetch_accepted by exact H.
  destruct (loop_effects f off sz (S (Z.to_nat maxretry)) 0 off
              (io_Pipe reader) w) as (rest & Hi & Hn & Hs & Hr & Hd);
    [unfold maxretry; lia | unfold maxretry; lia |].
  destruct (loop (S (Z.to_nat maxretry)) f off sz 0 off (io_Pipe reader) w)
    as [p w'].
  cbn [fst snd] in *. exists p, w', rest.
  repeat split; auto; try lia.
Qed.

(** From a head the loop has come back to, the call goes on as the loop
    started at that head. *)
Lemma retries_resume (f : fetcher) (off sz : Z) (h0 h : Head) :
  retries f off sz h0 h ->
  0 <= hd_i h0 ->
  forall fuel, (Z.to_nat (maxretry - hd_i h0) < fuel)%nat ->
    hd_i h0 <= hd_i h
    /\ loop fuel f off sz (hd_i h0) (hd_curoff h0) (hd_pw h0) (hd_world h0)
       = loop (S (Z.to_nat (maxretry - hd_i h))) f off sz
              (hd_i h) (hd_curoff h) (hd_pw h) (hd_world h).
Proof.
  intros Hr H0. induction Hr as [|h1 c p w1 Hr IH Hstep]; intros fuel Hfuel.
  - split; [lia|]. apply loop_fuel; lia.
  - destruct (IH fuel Hfuel) as (Hle & Heq). cbn [hd_i hd_curoff hd_pw hd_world].
    split; [lia|]. rewrite Heq, loop_S, Hstep.
    apply attempt_spec in Hstep.
    destruct Hstep as (_ & _ & _ & n & _ & _ & _ & St & _).
    destruct (St eq_refl) as (_ & Hlt & _).
    apply loop_fuel; lia.
Qed.

(** The call, seen from a head it has come back to. *)
Lemma Fetch_resume (f : fetcher) (off sz : Z) (reader : option nat)
  (w : World) (h : Head) :
  off <= size f ->
  retries f off sz (start off reader w) h ->
  Fetch f off sz reader w
  = let (p, w') :=
      loop (S (Z.to_nat (maxretry - hd_i h))) f off sz
           (hd_i h) (hd_curoff h) (hd_pw h) (hd_world h) in
    (inr p, w').
Proof.
  intros H Hr. rewrite Fetch_accepted by exact H.
  destruct (retries_resume f off sz _ _ Hr (Z.le_refl 0)
              (S (Z.to_nat maxretry))) as (_ & Heq).
  { cbn [start hd_i]. unfold maxretry. lia. }
  cbn [start hd_i hd_curoff hd_pw hd_world] in Heq. rewrite Heq.
  reflexivity.
Qed.

(** X1: the goroutine of an accepted call terminates.  Although the
    [for] loop has no bound of its own, the stream always ends up closed,
    with the error of the last attempt or cleanly, and running the loop
    for longer than [maxretry + 1] rounds gives the same stream. *)
Theorem Fetch_goroutine_terminates (f : fetcher) (off sz : Z)
  (reader : option nat) (w : World) :
  off <= size f ->
  exists (p : Pipe) (e : error),
    fst (Fetch f off sz reader w) = inr p
    /\ werr p = Some e
    /\ (reader = None -> io_ReadAll p <> None)
    /\ forall fuel, (Z.to_nat maxretry < fuel)%nat ->
         fst (loop fuel f off sz 0 off (io_Pipe reader) w) = p.
Proof.
  intros H. destruct (Fetch_closes_stream f off sz reader w H)
    as (p & e & Hp & He & Hfuel).
  exists p, e. repeat split; auto.
  intros _. unfold io_ReadAll. rewrite He. destruct e; discriminate.
Qed.

(** Offset 10 of the ten-byte blob, the lock never released. *)
Lemma Fetch_goroutine_terminates_witness :
  10 <= size sample_fetcher
  /\ exists (p : Pipe) (e : error),
       fst (Fetch sample_fetcher 10 4 None world_locked_forever) = inr p
       /\ werr p = Some e
       /\ (@None nat = None -> io_ReadAll p <> None)
       /\ forall fuel, (Z.to_nat maxretry < fuel)%nat ->
            fst (loop fuel sample_fetcher 10 4 0 10 (io_Pipe None)
                   world_locked_forever) = p.
Proof.
  split.
  - simpl. lia.
  - apply (Fetch_goroutine_terminates sample_fetcher 10 4 None
             world_locked_forever).
    simpl. lia.
Defined.

(** X2: one call hands out at most [maxretry + 1 = 101] commands, and
    none at all exactly when the offset is beyond the size. *)
Theorem Fetch_issues_at_most_101_reads (f : fetcher) (off sz : Z)
  (reader : option nat) (w : World) :
  exists new : list Cmd,
    issued (snd (Fetch f off sz reader w)) = issued w ++ new
    /\ len new <= 101
    /\ (new = [] <-> size f < off).
Proof.
  destruct (Z.lt_ge_cases (size f) off) as [Hlt|Hge].
  - exists []. rewrite Fetch_rejected by exact Hlt. cbn [snd].
    rewrite app_nil_r. unfold len. cbn. repeat split; auto; lia.
  - destruct (Fetch_effects f off sz reader w Hge)
      as (p & w' & rest & Hf & Hi & Hn & _).
    exists (cat_cmd f off sz :: rest). rewrite Hf. cbn [snd].
    split; [exact Hi|]. split.
    + unfold len in *. cbn [List.length]. rewrite Nat2Z.inj_succ.
      unfold maxretry in Hn. lia.
    + split; [discriminate | lia].
Qed.

(** X3: a call sleeps one second for each retry and at no other time:
    the time slept is one second per command after the first, at most 100
    seconds in all. *)
Theorem Fetch_sleeps_one_second_per_retry (f : fetcher) (off sz : Z)
  (reader : option nat) (w : World) :
  exists new : list Cmd,
    issued (snd (Fetch f off sz reader w)) = issued w ++ new
    /\ slept (snd (Fetch f off sz reader w))
       = slept w + Z.max 0 (len new - 1) * time_Second
    /\ slept (snd (Fetch f off sz reader w))
       <= slept w + 100 * time_Second.
Proof.
  destruct (Z.lt_ge_cases (size f) off) as [Hlt|Hge].
  - exists []. rewrite Fetch_rejected by exact Hlt. cbn [snd].
    rewrite app_nil_r. unfold len, time_Second. cbn. repeat split; lia.
  - destruct (Fetch_effects f off sz reader w Hge)
      as (p & w' & rest & Hf & Hi & Hn & Hs & _).
    exists (cat_cmd f off sz :: rest). rewrite Hf. cbn [snd].
    split; [exact Hi|].
    assert (Hl : len (cat_cmd f off sz :: rest) = 1 + len rest).
    { unfold len. cbn [List.length]. rewrite Nat2Z.inj_succ. lia. }
    pose proof (len_nonneg rest) as Hpos.
    rewrite Hl, Hs. unfold maxretry, time_Second in *. split; [|lia].
    replace (Z.max 0 (1 + len rest - 1)) with (len rest) by lia. reflexivity.
Qed.

(** X4: no process is left behind.  The commands a call leaves to the
    background reaper are exactly those of its commands that ran (whose
    pipe was made and whose process was started), in the order issued. *)
Theorem Fetch_reaps_every_started_command (f : fetcher) (off sz : Z)
  (reader : option nat) (w : World) :
  exists new : list Cmd,
    issued (snd (Fetch f off sz reader w)) = issued w ++ new
    /\ reaping (snd (Fetch f off sz reader w))
       = reaping w ++ ran w (List.length (issued w)) new.
Proof.
  destruct (Z.lt_ge_cases (size f) off) as [Hlt|Hge].
  - exists []. rewrite Fetch_rejected by exact Hlt. cbn [snd].
    unfold ran. cbn. rewrite !app_nil_r. auto.
  - destruct (Fetch_effects f off sz reader w Hge)
      as (p & w' & rest & Hf & Hi & _ & _ & Hr & _).
    exists (cat_cmd f off sz :: rest). rewrite Hf. cbn [snd]. auto.
Qed.

(** X5: a command that cannot be run ends the call.  At whatever point of
    the call the pipe cannot be made or the process cannot be started, the
    stream is closed with that error, without a retry, a sleep or a log
    entry, and the pipe holds what it held before. *)
Theorem Fetch_start_failure_is_final (f : fetcher) (off sz : Z)
  (reader : option nat) (w : World) (h : Head) (e : error) :
  off <= size f ->
  retries f off sz (start off reader w) h ->
  (pipe_error (cat_outcome f sz (hd_curoff h) (hd_world h)) = Some e
   \/ (pipe_error (cat_outcome f sz (hd_curoff h) (hd_world h)) = None
       /\ start_error (cat_outcome f sz (hd_curoff h) (hd_world h))
          = Some e)) ->
  Fetch f off sz reader w
  = (inr (pw_CloseWithError (hd_pw h) (Some e)),
     after_command (hd_world h) (cat_cmd f (hd_curoff h) sz)).
Proof.
  intros H Hr He. rewrite (Fetch_resume f off sz reader w h H Hr).
  rewrite loop_S, (attempt_not_started _ _ _ _ _ _ _ e He). reflexivity.
Qed.

(** No [ipfs] to run: the first command cannot be started. *)
Lemma Fetch_start_failure_is_final_witness :
  0 <= size sample_fetcher
  /\ retries sample_fetcher 0 4 (start 0 None world_no_ipfs)
             (start 0 None world_no_ipfs)
  /\ Fetch sample_fetcher 0 4 None world_no_ipfs
     = (inr (pw_CloseWithError (io_Pipe None)
               (Some (SysError
                  "exec: ipfs: executable file not found in $PATH"))),
        after_command world_no_ipfs (cat_cmd sample_fetcher 0 4)).
Proof.
  assert (H : 0 <= size sample_fetcher) by (simpl; lia).
  assert (Hr : retries sample_fetcher 0 4 (start 0 None world_no_ipfs)
                       (start 0 None world_no_ipfs)) by constructor.
  split; [exact H|]. split; [exact Hr|].
  apply (Fetch_start_failure_is_final sample_fetcher 0 4 None world_no_ipfs
           (start 0 None world_no_ipfs) _ H Hr).
  right. split; reflexivity.
Defined.

(** X6: a failed copy that is not retried ends the call.  When the copy
    of an attempt fails and the lock marker is missing from standard error,
    or the counter has reached the ceiling, the stream is closed with the
    error of the copy; the failure is logged once as failed, nothing is
    slept, and the process is left to the reaper. *)
Theorem Fetch_copy_failure_without_retry_is_final (f : fetcher) (off sz : Z)
  (reader : option nat) (w : World) (h : Head) (n : Z) (e : error)
  (pw' : Pipe) :
  off <= size f ->
  retries f off sz (start off reader w) h ->
  started (cat_outcome f sz (hd_curoff h) (hd_world h)) = true ->
  io_CopyN (hd_pw h)
    (mkReader (stdout (cat_outcome f sz (hd_curoff h) (hd_world h)))
              (stdout_error (cat_outcome f sz (hd_curoff h) (hd_world h))))
    sz = (n, Some e, pw') ->
  (Contains
     (string_of_bytes (stderr (cat_outcome f sz (hd_curoff h) (hd_world h))))
     lock_marker = false
   \/ maxretry <= hd_i h) ->
  Fetch f off sz reader w
  = (inr (pw_CloseWithError pw' (Some e)),
     after_attempt (hd_world h) (cat_cmd f (hd_curoff h) sz) 0
       [mkLogEntry fail_format e
          (string_of_bytes
             (stderr (cat_outcome f sz (hd_curoff h) (hd_world h))))
          (cid f) off sz n (hd_i h) maxretry]).
Proof.
  intros H Hr Hs Hc Hno. rewrite (Fetch_resume f off sz reader w h H Hr).
  rewrite loop_S, attempt_started by exact Hs. rewrite Hc.
  assert (Hb : (hd_i h <? maxretry)
               && Contains
                    (string_of_bytes
                       (stderr (cat_outcome f sz (hd_curoff h) (hd_world h))))
                    lock_marker = false).
  { destruct Hno as [Hm | Hi].
    - rewrite Hm. apply andb_false_r.
    - apply Z.ltb_ge in Hi. rewrite Hi. reflexivity. }
  rewrite Hb. reflexivity.
Qed.

(** The object lost after two bytes of the first read. *)
Lemma Fetch_copy_failure_without_retry_is_final_witness :
  0 <= size sample_fetcher
  /\ retries sample_fetcher 0 4 (start 0 None world_truncating)
             (start 0 None world_truncating)
  /\ Fetch sample_fetcher 0 4 None world_truncating
     = (inr (pw_CloseWithError (mkPipe (range sample_object 0 2) None None)
               (Some EOF)),
        after_attempt world_truncating (cat_cmd sample_fetcher 0 4) 0
          [mkLogEntry fail_format EOF
             "Error: block was not found locally (offline)"
             "bafy123" 0 4 2 0 maxretry]).
Proof.
  assert (H : 0 <= size sample_fetcher) by (simpl; lia).
  assert (Hr : retries sample_fetcher 0 4 (start 0 None world_truncating)
                       (start 0 None world_truncating)) by constructor.
  split; [exact H|]. split; [exact Hr|].
  apply (Fetch_copy_failure_without_retry_is_final sample_fetcher 0 4 None
           world_truncating (start 0 None world_truncating) 2 EOF
           (mkPipe (range sample_object 0 2) None None) H Hr).
  - reflexivity.
  - vm_compute. reflexivity.
  - left. vm_compute. reflexivity.
Defined.

(** X7: a copy that returns no error ends the call with a clean close.
    That copy has delivered [sz] bytes of what the command printed (none
    when [sz] is not positive); nothing is logged or slept, and the process
    is left to the reaper. *)
Theorem Fetch_full_copy_closes_cleanly (f : fetcher) (off sz : Z)
  (reader : option nat) (w : World) (h : Head) (n : Z) (pw' : Pipe) :
  off <= size f ->
  retries f off sz (start off reader w) h ->
  started (cat_outcome f sz (hd_curoff h) (hd_world h)) = true ->
  io_CopyN (hd_pw h)
    (mkReader (stdout (cat_outcome f sz (hd_curoff h) (hd_world h)))
              (stdout_error (cat_outcome f sz (hd_curoff h) (hd_world h))))
    sz = (n, None, pw') ->
  Fetch f off sz reader w
  = (inr (pw_Close pw'),
     after_attempt (hd_world h) (cat_cmd f (hd_curoff h) sz) 0 [])
  /\ n = Z.max sz 0
  /\ received pw'
     = received (hd_pw h)
       ++ firstn (Z.to_nat n)
            (stdout (cat_outcome f sz (hd_curoff h) (hd_world h))).
Proof.
  intros H Hr Hs Hc. split.
  - rewrite (Fetch_resume f off sz reader w h H Hr).
    rewrite loop_S, attempt_started by exact Hs. rewrite Hc. reflexivity.
  - apply io_CopyN_spec in Hc. cbn [rd_data] in Hc.
    destruct Hc as (Hrec & _ & _ & _ & He). split; [auto | exact Hrec].
Qed.

(** The resumed read of [Fetch sample_fetcher 0 4] in
    [world_locked_once]. *)
Lemma Fetch_full_copy_closes_cleanly_witness :
  0 <= size sample_fetcher
  /\ retries sample_fetcher 0 4 (start 0 None world_locked_once)
             (mkHead 1 2 resumed_pipe resumed_world)
  /\ Fetch sample_fetcher 0 4 None world_locked_once
     = (inr (pw_Close (mkPipe (range sample_object 0 6) None None)),
        after_attempt resumed_world (cat_cmd sample_fetcher 2 4) 0 []).
Proof.
  assert (H : 0 <= size sample_fetcher) by (simpl; lia).
  assert (Hr : retries sample_fetcher 0 4 (start 0 None world_locked_once)
                       (mkHead 1 2 resumed_pipe resumed_world))
    by first_retry.
  split; [exact H|]. split; [exact Hr|].
  apply (Fetch_full_copy_closes_cleanly sample_fetcher 0 4 None
           world_locked_once (mkHead 1 2 resumed_pipe resumed_world) 4
           (mkPipe (range sample_object 0 6) None None) H Hr).
  - reflexivity.
  - vm_compute. reflexivity.
Defined.

Lemma io_CopyN_nonpositive (dst : Pipe) (src : Reader) (n : Z) :
  n <= 0 -> io_CopyN dst src n = (0, None, dst).
Proof.
  intros H. unfold io_CopyN, io_LimitReader.
  apply Z.leb_le in H. rewrite H. apply Z.leb_le in H.
  unfold io_Copy. cbn [rd_data rd_err].
  destruct (0 =? n) eqn:E; [apply Z.eqb_eq in E; subst; reflexivity|].
  destruct (0 <? n) eqn:E'; [apply Z.ltb_lt in E'; lia | reflexivity].
Qed.

(** X8: a length that is not positive.  [Fetch] does not reject it: the
    command is issued with that length, and once it runs the stream is
    closed cleanly and empty at once, whatever the command prints or
    reports, the lock message included. *)
Theorem Fetch_nonpositive_length_copies_nothing (f : fetcher) (off sz : Z)
  (reader : option nat) (w : World) :
  off <= size f ->
  sz <= 0 ->
  started (cat_outcome f sz off w) = true ->
  Fetch f off sz reader w
  = (inr (pw_Close (io_Pipe reader)),
     after_attempt w (cat_cmd f off sz) 0 []).
Proof.
  intros H Hsz Hs. rewrite Fetch_accepted by exact H.
  rewrite loop_S, attempt_started by exact Hs.
  rewrite io_CopyN_nonpositive by exact Hsz. reflexivity.
Qed.

(** Length 0 while the lock is held. *)
Lemma Fetch_nonpositive_length_copies_nothing_witness :
  0 <= size sample_fetcher
  /\ 0 <= 0
  /\ started (cat_outcome sample_fetcher 0 0 world_locked_forever) = true
  /\ Fetch sample_fetcher 0 0 None world_locked_forever
     = (inr (pw_Close (io_Pipe None)),
        after_attempt world_locked_forever (cat_cmd sample_fetcher 0 0) 0 []).
Proof.
  assert (H : 0 <= size sample_fetcher) by (simpl; lia).
  assert (Hs : started (cat_outcome sample_fetcher 0 0 world_locked_forever)
               = true) by reflexivity.
  split; [exact H|]. split; [lia|]. split; [exact Hs|].
  apply (Fetch_nonpositive_length_copies_nothing sample_fetcher 0 0 None
           world_locked_forever H); [lia | exact Hs].
Defined.

(** X9: the stream never holds more than [sz] bytes for each command the
    call has issued; a call that needs no retry delivers at most [sz]
    bytes, and a call with a length that is not positive delivers none. *)
Theorem Fetch_delivery_bound (f : fetcher) (off sz : Z)
  (reader : option nat) (w : World) :
  off <= size f ->
  exists (p : Pipe) (new : list Cmd),
    fst (Fetch f off sz reader w) = inr p
    /\ issued (snd (Fetch f off sz reader w)) = issued w ++ new
    /\ len (received p) <= len new * Z.max sz 0
    /\ len (received p) <= 101 * Z.max sz 0.
Proof.
  intros H. destruct (Fetch_effects f off sz reader w H)
    as (p & w' & rest & Hf & Hi & Hn & _ & _ & Hd).
  exists p, (cat_cmd f off sz :: rest). rewrite Hf. cbn [fst snd].
  assert (Hl : len (cat_cmd f off sz :: rest) = 1 + len rest).
  { unfold len. cbn [List.length]. rewrite Nat2Z.inj_succ. lia. }
  pose proof (len_nonneg rest) as Hpos.
  rewrite Hl. unfold maxretry in Hn. repeat split; auto. nia.
Qed.

(** [Fetch sample_fetcher 0 4] with the lock held once. *)
Lemma Fetch_delivery_bound_witness :
  0 <= size sample_fetcher
  /\ exists (p : Pipe) (new : list Cmd),
       fst (Fetch sample_fetcher 0 4 None world_locked_once) = inr p
       /\ issued (snd (Fetch sample_fetcher 0 4 None world_locked_once))
          = issued world_locked_once ++ new
       /\ len (received p) <= len new * Z.max 4 0
       /\ len (received p) <= 101 * Z.max 4 0.
Proof.
  split.
  - simpl. lia.
  - apply (Fetch_delivery_bound sample_fetcher 0 4 None world_locked_once).
    simpl. lia.
Defined.

(** ** Against an honest store *)

(** X10: against a store that serves reads from one object, whatever
    trouble the reads run into and whoever reads the stream, the stream
    holds a range of the object that starts at [off]: the bytes arrive in
    order, none twice and none left out, also across retries. *)
Theorem Fetch_honest_stream_is_prefix (f : fetcher) (off sz : Z)
  (obj : list byte) (trouble : nat -> option (nat * string))
  (reader : option nat) (w : World) :
  oracle w = ipfs_cat obj trouble ->
  0 <= off <= size f ->
  size f <= max_int64 ->
  len obj <= max_int64 ->
  exists (p : Pipe) (w' : World) (m : Z),
    Fetch f off sz reader w = (inr p, w')
    /\ 0 <= m
    /\ received p = range obj off m.
Proof.
  intros Ho Hoff Hsize Hobj.
  destruct (Fetch_stream_contiguous f off sz obj trouble reader w
              Ho Hoff Hsize Hobj) as (p & w' & m & Hf & Hr).
  exists p, w', (Z.of_nat m). split; [exact Hf|]. split; [lia|].
  unfold range. rewrite Nat2Z.id. exact Hr.
Qed.

(** [Fetch sample_fetcher 0 4] with the lock held twice in a row. *)
Lemma Fetch_honest_stream_is_prefix_witness :
  oracle world_locked_twice
  = ipfs_cat sample_object
      (fun k => match k with
                | O => Some (2%nat, lock_message)
                | S O => Some (1%nat, lock_message)
                | _ => None
                end)
  /\ 0 <= 0 <= size sample_fetcher
  /\ size sample_fetcher <= max_int64
  /\ len sample_object <= max_int64
  /\ exists (p : Pipe) (w' : World) (m : Z),
       Fetch sample_fetcher 0 4 None world_locked_twice = (inr p, w')
       /\ 0 <= m
       /\ received p = range sample_object 0 m.
Proof.
  assert (H1 : 0 <= 0 <= size sample_fetcher) by (simpl; lia).
  assert (H2 : size sample_fetcher <= max_int64)
    by (unfold max_int64; simpl; lia).
  assert (H3 : len sample_object <= max_int64)
    by (unfold max_int64, len; simpl; lia).
  split; [reflexivity|]. split; [exact H1|]. split; [exact H2|].
  split; [exact H3|].
  exact (Fetch_honest_stream_is_prefix sample_fetcher 0 4 sample_object _
           None world_locked_twice eq_refl H1 H2 H3).
Defined.

(** The loop against an honest store that refuses the lock [N] times
    before any output and then serves the read, when the program finds the
    lock marker in the buffer of standard error at each refusal. *)
Lemma loop_refused (f : fetcher) (off sz : Z) (obj : list byte)
  (trouble : nat -> option (nat * string)) (curoff : Z) (r : list byte)
  (N : nat) :
  is_int64 curoff ->
  0 < sz ->
  forall (fuel : nat) (i : Z) (w : World),
    oracle w = ipfs_cat obj trouble ->
    0 <= i ->
    i + Z.of_nat N <= maxretry ->
    (N < fuel)%nat ->
    (forall j, (j < N)%nat ->
       exists seen : string,
         trouble (List.length (issued w) + j)%nat = Some (O, seen)
         /\ Contains seen lock_marker = true) ->
    trouble (List.length (issued w) + N)%nat = None ->
    exists w' : World,
      loop fuel f off sz i curoff (mkPipe r None None) w
      = (pw_Close (mkPipe (r ++ range obj curoff sz) None None), w')
      /\ issued w' = issued w ++ repeat (cat_cmd f curoff sz) (S N)
      /\ slept w' = slept w + Z.of_nat N * time_Second.
Proof.
  intros H64 Hsz.
  assert (Hall : firstn (Z.to_nat sz) (range obj curoff sz)
                 = range obj curoff sz).
  { unfold range. rewrite firstn_firstn, Nat.min_id. reflexivity. }
  induction N as [|N IH]; intros fuel i w Ho Hi HN Hfuel Hlock Hfree;
    (destruct fuel as [|fuel]; [lia|]); rewrite loop_S.
  - rewrite Nat.add_0_r in Hfree.
    assert (Hout : cat_outcome f sz curoff w = prints (range obj curoff sz)).
    { unfold cat_outcome. rewrite Ho, ipfs_cat_read, Hfree. reflexivity. }
    rewrite attempt_started by (rewrite Hout; reflexivity).
    rewrite Hout. cbn [prints stdout stdout_error stderr].
    destruct (io_CopyN_patient (mkPipe r None None) (range obj curoff sz) sz
                eq_refl eq_refl) as (e & He & Hcase).
    rewrite He, Hall. cbn [received].
    destruct Hcase as [-> | ->].
    + eexists. split; [reflexivity|]. cbn [after_attempt issued slept].
      split; [reflexivity | lia].
    + replace (Contains (string_of_bytes []) lock_marker) with false
        by reflexivity.
      rewrite andb_false_r.
      eexists. split; [reflexivity|]. cbn [after_attempt issued slept].
      split; [reflexivity | lia].
  - destruct (Hlock O ltac:(lia)) as (seen & Hseen & Hmark).
    rewrite Nat.add_0_r in Hseen.
    assert (Hout : cat_outcome f sz curoff w = dies_after [] seen).
    { unfold cat_outcome. rewrite Ho, ipfs_cat_read, Hseen. reflexivity. }
    rewrite attempt_started by (rewrite Hout; reflexivity).
    rewrite Hout. cbn [dies_after stdout stdout_error stderr].
    rewrite io_CopyN_short_source by (auto; unfold len; cbn; lia).
    assert (Hi' : (i <? maxretry) = true) by (apply Z.ltb_lt; lia).
    rewrite Hi'.
    unfold string_of_bytes, bytes_of_string.
    rewrite string_of_list_byte_of_string, Hmark.
    cbn [andb received]. rewrite app_nil_r.
    unfold len at 1. cbn [List.length Z.of_nat].
    rewrite Z.add_0_r, wrap64_id by exact H64.
    set (w1 := after_attempt w (cat_cmd f curoff sz) time_Second _).
    assert (Hlen : List.length (issued w1) = S (List.length (issued w))).
    { unfold w1. cbn [after_attempt issued]. rewrite length_app. cbn. lia. }
    destruct (IH fuel (i + 1) w1) as (w' & Hl & His & Hsl).
    + exact Ho.
    + lia.
    + lia.
    + lia.
    + intros j Hj. rewrite Hlen.
      replace (S (List.length (issued w)) + j)%nat
        with (List.length (issued w) + S j)%nat by lia.
      apply Hlock. lia.
    + rewrite Hlen.
      replace (S (List.length (issued w)) + N)%nat
        with (List.length (issued w) + S N)%nat by lia.
      exact Hfree.
    + exists w'. split; [exact Hl|]. split.
      * rewrite His. unfold w1. cbn [after_attempt issued].
        rewrite <- app_assoc. reflexivity.
      * rewrite Hsl. unfold w1. cbn [after_attempt slept]. lia.
Qed.

(** The loop against an honest store that refuses the lock before any
    output, when the program does not find the lock marker in the buffer of
    standard error: one read, no sleep, and the stream is closed with the
    [io.EOF] of the copy. *)
Lemma loop_refused_unseen (f : fetcher) (off sz : Z) (obj : list byte)
  (trouble : nat -> option (nat * string)) (curoff i : Z) (r : list byte)
  (fuel : nat) (w : World) (seen : string) :
  0 < sz ->
  oracle w = ipfs_cat obj trouble ->
  trouble (List.length (issued w)) = Some (O, seen) ->
  Contains seen lock_marker = false ->
  exists w' : World,
    loop (S fuel) f off sz i curoff (mkPipe r None None) w
    = (pw_CloseWithError (mkPipe r None None) (Some EOF), w')
    /\ issued w' = issued w ++ [cat_cmd f curoff sz]
    /\ slept w' = slept w.
Proof.
  intros Hsz Ho Hseen Hmark. rewrite loop_S.
  assert (Hout : cat_outcome f sz curoff w = dies_after [] seen).
  { unfold cat_outcome. rewrite Ho, ipfs_cat_read, Hseen. reflexivity. }
  rewrite attempt_started by (rewrite Hout; reflexivity).
  rewrite Hout. cbn [dies_after stdout stdout_error stderr].
  rewrite io_CopyN_short_source by (auto; unfold len; cbn; lia).
  unfold string_of_bytes, bytes_of_string.
  rewrite string_of_list_byte_of_string, Hmark, andb_false_r.
  cbn [received]. rewrite app_nil_r.
  eexists. split; [reflexivity|]. cbn [after_attempt issued slept].
  split; [reflexivity | lia].
Qed.

(** X11: recovery from a lock held for a while depends on what the program
    finds in the buffer of standard error, which it reads while the report
    of the command may still be on its way.  Against an honest store that
    refuses the lock before printing anything: if at each of [N] refusals
    (at most 100) the program finds the lock marker in the buffer, and the
    store then serves the read, a stream read to its end yields exactly the
    bytes [off, off+sz) of the object (as far as the object reaches) and a
    clean end, after [N + 1] reads, all at the offset of the call, and [N]
    seconds of sleep; if at the first refusal the program does not find the
    marker, there is one read and no sleep, and the stream read to its end
    yields no byte and a clean end. *)
Theorem Fetch_recovers_from_early_lock (f : fetcher) (off sz : Z)
  (obj : list byte) (trouble : nat -> option (nat * string)) (w : World) :
  oracle w = ipfs_cat obj trouble ->
  is_int64 off ->
  off <= size f ->
  0 < sz ->
  (forall N : nat,
     (N <= 100)%nat ->
     (forall j, (j < N)%nat ->
        exists seen : string,
          trouble (List.length (issued w) + j)%nat = Some (O, seen)
          /\ Contains seen lock_marker = true) ->
     trouble (List.length (issued w) + N)%nat = None ->
     exists (p : Pipe) (w' : World),
       Fetch f off sz None w = (inr p, w')
       /\ io_ReadAll p = Some (range obj off sz, None)
       /\ issued w' = issued w ++ repeat (cat_cmd f off sz) (S N)
       /\ slept w' = slept w + Z.of_nat N * time_Second)
  /\ (forall seen : string,
        trouble (List.length (issued w)) = Some (O, seen) ->
        Contains seen lock_marker = false ->
        exists (p : Pipe) (w' : World),
          Fetch f off sz None w = (inr p, w')
          /\ io_ReadAll p = Some ([], None)
          /\ issued w' = issued w ++ [cat_cmd f off sz]
          /\ slept w' = slept w).
Proof.
  intros Ho H64 Hoff Hsz. split.
  - intros N HN Hlock Hfree.
    rewrite Fetch_accepted by exact Hoff.
    destruct (loop_refused f off sz obj trouble off [] N H64 Hsz
                (S (Z.to_nat maxretry)) 0 w Ho (Z.le_refl 0))
      as (w' & Hl & Hi & Hs); auto.
    + unfold maxretry. lia.
    + unfold maxretry. lia.
    + change (io_Pipe None) with (mkPipe [] None None). rewrite Hl.
      eexists. eexists. split; [reflexivity|]. cbn [app].
      split; [reflexivity|]. auto.
  - intros seen Hseen Hmark.
    rewrite Fetch_accepted by exact Hoff.
    destruct (loop_refused_unseen f off sz obj trouble off 0 []
                (Z.to_nat maxretry) w seen Hsz Ho Hseen Hmark)
      as (w' & Hl & Hi & Hs).
    change (io_Pipe None) with (mkPipe [] None None). rewrite Hl.
    eexists. eexists. split; [reflexivity|].
    split; [reflexivity|]. auto.
Qed.

(** The range [2, 7) of the ten-byte object: after three refusals at each
    of which the program finds the whole report, and after one refusal of
    which the program finds nothing. *)
Lemma Fetch_recovers_from_early_lock_witness :
  is_int64 2
  /\ 2 <= size sample_fetcher
  /\ 0 < 5
  /\ (exists (p : Pipe) (w' : World),
        Fetch sample_fetcher 2 5 None world_refused_thrice = (inr p, w')
        /\ io_ReadAll p = Some (range sample_object 2 5, None)
        /\ issued w'
           = issued world_refused_thrice
             ++ repeat (cat_cmd sample_fetcher 2 5) 4
        /\ slept w' = slept world_refused_thrice + Z.of_nat 3 * time_Second)
  /\ (exists (p : Pipe) (w' : World),
        Fetch sample_fetcher 2 5 None world_refused_unseen = (inr p, w')
        /\ io_ReadAll p = Some ([], None)
        /\ issued w'
           = issued world_refused_unseen ++ [cat_cmd sample_fetcher 2 5]
        /\ slept w' = slept world_refused_unseen).
Proof.
  assert (H64 : is_int64 2)
    by (unfold is_int64, min_int64, max_int64; lia).
  assert (Hoff : 2 <= size sample_fetcher) by (simpl; lia).
  assert (H5 : 0 < 5) by lia.
  split; [exact H64|]. split; [exact Hoff|]. split; [exact H5|]. split.
  - apply (proj1 (Fetch_recovers_from_early_lock sample_fetcher 2 5
                    sample_object
                    (fun k => if (k <? 3)%nat then Some (O, lock_message)
                              else None)
                    world_refused_thrice eq_refl H64 Hoff H5) 3%nat).
    + lia.
    + intros j Hj. exists lock_message.
      cbn [world_refused_thrice store issued List.length Nat.add].
      split; [|reflexivity].
      destruct j as [|[|[|j]]]; try reflexivity. lia.
    + reflexivity.
  - apply (proj2 (Fetch_recovers_from_early_lock sample_fetcher 2 5
                    sample_object
                    (fun k => if (k <? 1)%nat then Some (O, EmptyString)
                              else None)
                    world_refused_unseen eq_refl H64 Hoff H5) EmptyString).
    + reflexivity.
    + reflexivity.
Defined.

(** ** The size query *)

Lemma uint_val_mono (d : Decimal.uint) :
  forall acc, 0 <= acc -> acc <= uint_val d acc.
Proof.
  induction d as [|d IH|d IH|d IH|d IH|d IH|d IH|d IH|d IH|d IH|d IH];
    intros acc Hacc; cbn [uint_val]; [lia| | | | | | | | | |];
    (etransitivity; [|apply IH]; lia).
Qed.

(** [ParseUint]'s loop reads a numeral that fits [uint64] to its value. *)
Lemma parse_digits_uint (d : Decimal.uint) :
  forall acc, 0 <= acc -> uint_val d acc <= 2 ^ 64 - 1 ->
    parse_digits (NilEmpty.string_of_uint d) acc = inr (uint_val d acc).
Proof.
  assert (Hcut : 2 ^ 64 / 10 + 1 = 1844674407370955162) by reflexivity.
  induction d as [|d IH|d IH|d IH|d IH|d IH|d IH|d IH|d IH|d IH|d IH];
    intros acc Hacc Hfit;
    cbn [NilEmpty.string_of_uint uint_val parse_digits] in *;
    [reflexivity| | | | | | | | | |];
    (match goal with
     | |- context [digit_val ?c] =>
         let v := eval vm_compute in (digit_val c) in
         change (digit_val c) with v
     end;
     cbv beta iota; rewrite Hcut;
     match type of Hfit with
     | uint_val _ ?a <= _ =>
         pose proof (uint_val_mono d a ltac:(lia)) as Hm
     end;
     destruct (1844674407370955162 <=? acc) eqn:E1;
       [apply Z.leb_le in E1; lia|];
     match goal with
     | |- context [2 ^ 64 - 1 <? ?a] =>
         destruct (2 ^ 64 - 1 <? a) eqn:E2;
           [apply Z.ltb_lt in E2; lia|]
     end;
     cbv zeta; apply IH; lia).
Qed.

Lemma of_uint_acc_val (d : Decimal.uint) :
  forall q, Z.pos (Pos.of_uint_acc d q) = uint_val d (Z.pos q).
Proof.
  induction d as [|d IH|d IH|d IH|d IH|d IH|d IH|d IH|d IH|d IH|d IH];
    intros q; cbn [Pos.of_uint_acc uint_val]; [reflexivity| | | | | | | | | |];
    rewrite IH; f_equal; lia.
Qed.

Lemma of_uint_val (d : Decimal.uint) : Z.of_uint d = uint_val d 0.
Proof.
  unfold Z.of_uint.
  induction d as [|d IH|d IH|d IH|d IH|d IH|d IH|d IH|d IH|d IH|d IH];
    cbn [Pos.of_uint uint_val Z.of_N]; [reflexivity|exact IH| | | | | | | | |];
    rewrite of_uint_acc_val; reflexivity.
Qed.

Lemma to_uint_val (q : positive) : uint_val (Pos.to_uint q) 0 = Z.pos q.
Proof.
  rewrite <- of_uint_val. exact (DecimalZ.of_to (Z.pos q)).
Qed.

(** A numeral other than the empty one prints as a string that starts
    with a digit. *)
Lemma string_of_uint_head (d : Decimal.uint) :
  d <> Decimal.Nil ->
  exists c rest,
    NilEmpty.string_of_uint d = String c rest
    /\ Ascii.eqb c "+" = false /\ Ascii.eqb c "-" = false.
Proof.
  destruct d; intros H; [contradiction| | | | | | | | | |];
    eexists; eexists; repeat split; reflexivity.
Qed.

(** Round trip: [ParseInt] reads back what [%d] prints of an [int64]. *)
Lemma ParseInt_fmt_d (z : Z) : is_int64 z -> ParseInt (fmt_d z) = inr z.
Proof.
  unfold is_int64, min_int64, max_int64. intros Hz.
  destruct z as [|q|q]; [reflexivity| |].
  - pose proof (DecimalPos.Unsigned.to_uint_nonnil q) as Hnn.
    assert (Hs : fmt_d (Z.pos q) = NilEmpty.string_of_uint (Pos.to_uint q)).
    { unfold fmt_d. cbn [Z.to_int NilZero.string_of_int].
      unfold NilZero.string_of_uint. destruct (Pos.to_uint q);
        [contradiction|reflexivity..]. }
    destruct (string_of_uint_head _ Hnn) as (c & rest & Heq & Hplus & Hminus).
    assert (Hp : parse_digits (String c rest) 0 = inr (Z.pos q)).
    { rewrite <- Heq, parse_digits_uint by (rewrite ?to_uint_val; lia).
      rewrite to_uint_val. reflexivity. }
    rewrite Hs, Heq. unfold ParseInt. rewrite Hplus, Hminus.
    cbn [orb negb andb]. unfold ParseUint. rewrite Hp.
    destruct (2 ^ 63 <=? Z.pos q) eqn:E; [apply Z.leb_le in E; lia|].
    reflexivity.
  - pose proof (DecimalPos.Unsigned.to_uint_nonnil q) as Hnn.
    assert (Hs : fmt_d (Z.neg q)
                 = String "-" (NilEmpty.string_of_uint (Pos.to_uint q))).
    { unfold fmt_d. cbn [Z.to_int NilZero.string_of_int].
      unfold NilZero.string_of_uint. destruct (Pos.to_uint q);
        [contradiction|reflexivity..]. }
    destruct (string_of_uint_head _ Hnn) as (c & rest & Heq & _ & _).
    assert (Hp : parse_digits (String c rest) 0 = inr (Z.pos q)).
    { rewrite <- Heq, parse_digits_uint by (rewrite ?to_uint_val; lia).
      rewrite to_uint_val. reflexivity. }
    rewrite Hs, Heq. unfold ParseInt.
    replace (Ascii.eqb "-" "-") with true by reflexivity.
    replace (Ascii.eqb "-" "+") with false by reflexivity.
    cbn [orb negb andb]. unfold ParseUint. rewrite Hp.
    destruct (2 ^ 63 <? Z.pos q) eqn:E; [apply Z.ltb_lt in E; lia|].
    reflexivity.
Qed.

Lemma length_append_newline (s : string) :
  String.length (s ++ newline)%string = S (String.length s).
Proof. induction s as [|a s IH]; cbn; [reflexivity | rewrite IH; reflexivity]. Qed.

Lemma substring_last_newline (s : string) :
  substring (String.length s) 1 (s ++ newline)%string = newline.
Proof. induction s as [|a s IH]; cbn; [reflexivity | exact IH]. Qed.

Lemma substring_before_newline (s : string) :
  substring 0 (String.length s) (s ++ newline)%string = s.
Proof. induction s as [|a s IH]; cbn; [reflexivity | rewrite IH; reflexivity]. Qed.

(** [TrimSuffix] takes one trailing newline off. *)
Lemma TrimSuffix_newline_off (s : string) :
  TrimSuffix (s ++ newline)%string newline = s.
Proof.
  unfold TrimSuffix, HasSuffix. rewrite length_append_newline.
  change (String.length newline) with 1%nat.
  replace (S (String.length s) - 1)%nat with (String.length s) by lia.
  rewrite substring_last_newline, String.eqb_refl, substring_before_newline.
  reflexivity.
Qed.

(** The value of [Handle] by the result of the size query. *)
Lemma Handle_unfold (Descriptor : Type)
  (GetCID : Descriptor -> error + string) (desc : Descriptor) (w : World)
  (c : string) :
  GetCID desc = inr c ->
  let o := oracle w (List.length (issued w)) (stat_size_cmd c) in
  Handle Descriptor GetCID desc w
  = (match cmd_Run o with
     | Some e => inl e
     | None =>
         match ParseInt (TrimSuffix (string_of_bytes (stdout o)) newline) with
         | inl e => inl e
         | inr n => inr ({| cid := c; size := n |}, n)
         end
     end, after_command w (stat_size_cmd c)).
Proof.
  intros Hc o. unfold Handle. rewrite Hc. unfold bind, exec. cbn [snd].
  fold (stat_size_cmd c). fold o. unfold cmd_Output, cmd_Run.
  destruct (start_error o); [reflexivity|].
  destruct (exit_error o); [reflexivity|].
  destruct (ParseInt _); reflexivity.
Qed.

(** X12: the size query round trip.  When the store answers the size
    query with an [int64] printed in decimal and one newline, [Handle]
    returns exactly that number, bound into the fetcher and as the size. *)
Theorem Handle_reads_decimal_size (Descriptor : Type)
  (GetCID : Descriptor -> error + string) (desc : Descriptor) (w : World)
  (c : string) (n : Z) :
  GetCID desc = inr c ->
  is_int64 n ->
  cmd_Run (oracle w (List.length (issued w)) (stat_size_cmd c)) = None ->
  stdout (oracle w (List.length (issued w)) (stat_size_cmd c))
  = bytes_of_string (fmt_d n ++ newline)%string ->
  Handle Descriptor GetCID desc w
  = (inr ({| cid := c; size := n |}, n), after_command w (stat_size_cmd c)).
Proof.
  intros Hc Hn Hrun Hout. rewrite (Handle_unfold _ _ _ _ c Hc).
  cbv zeta. rewrite Hrun, Hout.
  unfold string_of_bytes, bytes_of_string.
  rewrite string_of_list_byte_of_string, TrimSuffix_newline_off.
  rewrite ParseInt_fmt_d by exact Hn. reflexivity.
Qed.

(** A blob of 1000 bytes. *)
Lemma Handle_reads_decimal_size_witness :
  (fun _ : unit => inr "bafy123" : error + string) tt = inr "bafy123"
  /\ is_int64 1000
  /\ Handle unit (fun _ => inr "bafy123") tt world_stat
     = (inr ({| cid := "bafy123"; size := 1000 |}, 1000),
        after_command world_stat (stat_size_cmd "bafy123")).
Proof.
  assert (H64 : is_int64 1000)
    by (unfold is_int64, min_int64, max_int64; lia).
  split; [reflexivity|]. split; [exact H64|].
  apply (Handle_reads_decimal_size unit (fun _ => inr "bafy123") tt
           world_stat "bafy123" 1000 eq_refl H64); reflexivity.
Defined.

Lemma all_digits_newline (s : string) :
  all_digits (s ++ newline)%string = false.
Proof.
  induction s as [|a s IH]; [reflexivity|].
  cbn [String.append all_digits]. destruct (digit_val a); auto.
Qed.

(** No string that ends in a newline is a decimal integer. *)
Lemma is_decimal_newline (s : string) :
  is_decimal (s ++ newline)%string = false.
Proof.
  destruct s as [|a s]; [reflexivity|].
  cbn [String.append is_decimal].
  destruct (Ascii.eqb a "+" || Ascii.eqb a "-").
  - pose proof (all_digits_newline s) as H.
    destruct (s ++ newline)%string; [reflexivity | exact H].
  - exact (all_digits_newline (String a s)).
Qed.

(** X13: only one newline is trimmed.  When the answer to the size query
    ends in two newlines, whatever comes before them, [Handle] fails with
    the error of [ParseInt]. *)
Theorem Handle_rejects_second_newline (Descriptor : Type)
  (GetCID : Descriptor -> error + string) (desc : Descriptor) (w : World)
  (c : string) (s : string) :
  GetCID desc = inr c ->
  cmd_Run (oracle w (List.length (issued w)) (stat_size_cmd c)) = None ->
  stdout (oracle w (List.length (issued w)) (stat_size_cmd c))
  = bytes_of_string ((s ++ newline) ++ newline)%string ->
  exists num err,
    Handle Descriptor GetCID desc w
    = (inl (NumError "ParseInt" num err), after_command w (stat_size_cmd c))
    /\ num = (s ++ newline)%string.
Proof.
  intros Hc Hrun Hout. rewrite (Handle_unfold _ _ _ _ c Hc).
  cbv zeta. rewrite Hrun, Hout.
  unfold string_of_bytes, bytes_of_string.
  rewrite string_of_list_byte_of_string, TrimSuffix_newline_off.
  destruct (ParseInt (s ++ newline)%string) as [e|n] eqn:Hp.
  - unfold ParseInt in Hp.
    destruct (s ++ newline)%string as [|a rest] eqn:Hs.
    + destruct s; discriminate.
    + destruct (ParseUint _) as [[|]|un];
        [injection Hp as <-; eexists; eexists; split; reflexivity
        |injection Hp as <-; eexists; eexists; split; reflexivity|].
      destruct (negb _ && _);
        [injection Hp as <-; eexists; eexists; split; reflexivity|].
      destruct (_ && _);
        [injection Hp as <-; eexists; eexists; split; reflexivity
        |discriminate].
  - apply ParseInt_decimal in Hp. destruct Hp as [Hd _].
    rewrite is_decimal_newline in Hd. discriminate.
Qed.

(** The answer [1000] with a blank line after it. *)
Lemma Handle_rejects_second_newline_witness :
  (fun _ : unit => inr "bafy123" : error + string) tt = inr "bafy123"
  /\ exists num err,
       Handle unit (fun _ => inr "bafy123") tt world_stat_blank_line
       = (inl (NumError "ParseInt" num err),
          after_command world_stat_blank_line (stat_size_cmd "bafy123"))
       /\ num = ("1000" ++ newline)%string.
Proof.
  split; [reflexivity|].
  apply (Handle_rejects_second_newline unit (fun _ => inr "bafy123") tt
           world_stat_blank_line "bafy123" "1000" eq_refl); reflexivity.
Defined.

(** ** Identifiers *)

Lemma hex_pair (b : byte) :
  Byte.of_N (16 * hex_val (hex_digit (Byte.to_N b / 16))
             + hex_val (hex_digit (Byte.to_N b mod 16))) = Some b.
Proof. destruct b; reflexivity. Qed.

(** Round trip: the bytes can be read back from what [%x] prints. *)
Lemma unhex_fmt_x (bs : list byte) : unhex (fmt_x bs) = bs.
Proof.
  induction bs as [|b bs IH]; [reflexivity|].
  cbn [fmt_x]. unfold fmt_x_byte. cbn [String.append unhex].
  rewrite hex_pair, IH. reflexivity.
Qed.

Lemma fmt_x_inj (a b : list byte) : fmt_x a = fmt_x b -> a = b.
Proof.
  intros H. rewrite <- (unhex_fmt_x a), <- (unhex_fmt_x b), H. reflexivity.
Qed.

Lemma bytes_of_string_inj (s t : string) :
  bytes_of_string s = bytes_of_string t -> s = t.
Proof.
  unfold bytes_of_string. intros H.
  rewrite <- (string_of_list_byte_of_string s),
          <- (string_of_list_byte_of_string t), H.
  reflexivity.
Qed.

Lemma string_of_uint_digits (d : Decimal.uint) :
  all_digits (NilEmpty.string_of_uint d) = true.
Proof.
  induction d as [|d IH|d IH|d IH|d IH|d IH|d IH|d IH|d IH|d IH|d IH];
    [reflexivity|exact IH..].
Qed.

(** What [%d] prints: a minus sign or nothing, then at least one digit
    and nothing but digits. *)
Lemma fmt_d_shape (z : Z) :
  exists digits : string,
    (fmt_d z = digits \/ fmt_d z = String "-" digits)
    /\ all_digits digits = true
    /\ digits <> EmptyString.
Proof.
  assert (Hu : forall d, all_digits (NilZero.string_of_uint d) = true
                         /\ NilZero.string_of_uint d <> EmptyString).
  { intros d. unfold NilZero.string_of_uint.
    destruct d; (split; [try reflexivity; apply string_of_uint_digits
                        | discriminate]). }
  unfold fmt_d. destruct (Z.to_int z) as [d|d]; cbn [NilZero.string_of_int];
    exists (NilZero.string_of_uint d); destruct (Hu d); auto.
Qed.

(** Two runs of digits followed by a hyphen are told apart by the
    hyphen. *)
Lemma digits_sep (D : string) :
  forall D' B B',
    all_digits D = true -> all_digits D' = true ->
    (D ++ String "-" B)%string = (D' ++ String "-" B')%string ->
    D = D' /\ B = B'.
Proof.
  induction D as [|a D IH]; intros [|a' D'] B B' HD HD' H;
    cbn [String.append] in H.
  - injection H as H. auto.
  - injection H as Ha _. subst a'. discriminate.
  - injection H as Ha _. subst a. discriminate.
  - injection H as Ha H. subst a'.
    cbn [all_digits] in HD, HD'.
    destruct (digit_val a); [|discriminate].
    destruct (IH D' B B' HD HD' H) as [-> ->]. auto.
Qed.

Lemma fmt_d_sep (a a' : Z) (B B' : string) :
  (fmt_d a ++ String "-" B)%string = (fmt_d a' ++ String "-" B')%string ->
  a = a' /\ B = B'.
Proof.
  intros H.
  destruct (fmt_d_shape a) as (D & Hs & HD & Hne).
  destruct (fmt_d_shape a') as (D' & Hs' & HD' & Hne').
  assert (Hgoal : fmt_d a = fmt_d a' /\ B = B').
  { destruct Hs as [Hs|Hs]; destruct Hs' as [Hs'|Hs'];
      rewrite Hs, Hs' in *; cbn [String.append] in H.
    - destruct (digits_sep D D' B B' HD HD' H) as [-> ->]. auto.
    - destruct D as [|c D]; [contradiction|].
      cbn [String.append] in H. injection H as Hc _. subst c. discriminate.
    - destruct D' as [|c D']; [contradiction|].
      cbn [String.append] in H. injection H as Hc _. subst c. discriminate.
    - injection H as H.
      destruct (digits_sep D D' B B' HD HD' H) as [-> ->]. auto. }
  destruct Hgoal as [Hf HB]. split; [apply fmt_d_inj; exact Hf | exact HB].
Qed.

(** X14: identifiers of one blob.  For two ranges of blobs with one CID,
    the texts that [GenID] hashes are equal exactly when the ranges are:
    the text determines the offset and the length.  The identifiers are
    equal exactly when the SHA-256 digests of those two texts are.  So two
    ranges get the same identifier only if they are the same range, or
    else those two texts differ and have the same digest. *)
Theorem GenID_ranges_distinct_unless_collision (f g : fetcher)
  (off sz off' sz' : Z) :
  cid f = cid g ->
  (bytes_of_string (cid f ++ "-" ++ fmt_d off ++ "-" ++ fmt_d sz)%string
   = bytes_of_string (cid g ++ "-" ++ fmt_d off' ++ "-" ++ fmt_d sz')%string
   <-> off = off' /\ sz = sz')
  /\ (GenID f off sz = GenID g off' sz'
      <-> SHA256.Sum256
            (bytes_of_string
               (cid f ++ "-" ++ fmt_d off ++ "-" ++ fmt_d sz)%string)
          = SHA256.Sum256
              (bytes_of_string
                 (cid g ++ "-" ++ fmt_d off' ++ "-" ++ fmt_d sz')%string))
  /\ (GenID f off sz = GenID g off' sz' ->
      (off = off' /\ sz = sz')
      \/ (bytes_of_string
            (cid f ++ "-" ++ fmt_d off ++ "-" ++ fmt_d sz)%string
          <> bytes_of_string
               (cid g ++ "-" ++ fmt_d off' ++ "-" ++ fmt_d sz')%string
          /\ SHA256.Sum256
               (bytes_of_string
                  (cid f ++ "-" ++ fmt_d off ++ "-" ++ fmt_d sz)%string)
             = SHA256.Sum256
                 (bytes_of_string
                    (cid g ++ "-" ++ fmt_d off' ++ "-" ++ fmt_d sz')%string))).
Proof.
  intros Hc.
  assert (Htext :
    bytes_of_string (cid f ++ "-" ++ fmt_d off ++ "-" ++ fmt_d sz)%string
    = bytes_of_string (cid g ++ "-" ++ fmt_d off' ++ "-" ++ fmt_d sz')%string
    -> off = off' /\ sz = sz').
  { intros Heq. rewrite <- Hc in Heq.
    apply bytes_of_string_inj, append_inj_l in Heq.
    cbn [String.append] in Heq. injection Heq as Heq.
    destruct (fmt_d_sep off off' _ _ Heq) as [-> Hsz].
    apply fmt_d_inj in Hsz. auto. }
  assert (Hid :
    GenID f off sz = GenID g off' sz' ->
    SHA256.Sum256
      (bytes_of_string (cid f ++ "-" ++ fmt_d off ++ "-" ++ fmt_d sz)%string)
    = SHA256.Sum256
        (bytes_of_string
           (cid g ++ "-" ++ fmt_d off' ++ "-" ++ fmt_d sz')%string)).
  { intros H. unfold GenID in H. apply fmt_x_inj in H. exact H. }
  split; [|split].
  - split; [exact Htext|]. intros [-> ->]. rewrite Hc. reflexivity.
  - split; [exact Hid|]. intros H. unfold GenID. rewrite H. reflexivity.
  - intros H. apply Hid in H.
    match type of H with
    | SHA256.Sum256 ?m = SHA256.Sum256 ?m' =>
        destruct (list_eq_dec Byte.byte_eq_dec m m') as [Heq|Hne]
    end.
    + left. apply Htext. exact Heq.
    + right. split; [exact Hne | exact H].
Qed.

(** The ranges [0, 500) and [500, 1000) of [bafy123], seen from two
    fetchers: the texts that are hashed differ. *)
Lemma GenID_ranges_distinct_unless_collision_witness :
  cid sample_fetcher = cid large_fetcher
  /\ bytes_of_string
       (cid sample_fetcher ++ "-" ++ fmt_d 0 ++ "-" ++ fmt_d 500)%string
     <> bytes_of_string
          (cid large_fetcher ++ "-" ++ fmt_d 500 ++ "-" ++ fmt_d 500)%string
  /\ (GenID sample_fetcher 0 500 = GenID large_fetcher 500 500
      <-> SHA256.Sum256
            (bytes_of_string
               (cid sample_fetcher ++ "-" ++ fmt_d 0 ++ "-"
                ++ fmt_d 500)%string)
          = SHA256.Sum256
              (bytes_of_string
                 (cid large_fetcher ++ "-" ++ fmt_d 500 ++ "-"
                  ++ fmt_d 500)%string)).
Proof.
  split; [reflexivity|].
  destruct (GenID_ranges_distinct_unless_collision sample_fetcher
              large_fetcher 0 500 500 500 eq_refl) as (Ht & Hi & _).
  split; [|exact Hi].
  intros Heq. apply Ht in Heq. destruct Heq as [H0 _]. discriminate H0.
Defined.

Lemma append_hyphen (c x : string) :
  (c ++ String "-" (String "-" x))%string
  = ((c ++ "-") ++ String "-" x)%string.
Proof.
  induction c as [|a c IH]; cbn [String.append]; [reflexivity|].
  rewrite IH. reflexivity.
Qed.

(** X15: identifiers across CIDs are not kept apart.  The text that is
    hashed joins the CID, the offset and the length with hyphens and [%d]
    prints a negative offset with a hyphen of its own, so a negative
    offset of one CID and the opposite offset of that CID followed by a
    hyphen get the same identifier. *)
Theorem GenID_confuses_cid_and_sign (c : string) (s1 s2 off sz : Z) :
  0 < off ->
  GenID {| cid := c; size := s1 |} (- off) sz
  = GenID {| cid := (c ++ "-")%string; size := s2 |} off sz.
Proof.
  intros H. destruct off as [|q|q]; try lia.
  unfold GenID. cbn [cid]. do 3 f_equal.
  change (fmt_d (- Z.pos q)) with (String "-" (fmt_d (Z.pos q))).
  cbn [String.append]. apply append_hyphen.
Qed.

(** Offset -1 of [x] and offset 1 of [x-]. *)
Lemma GenID_confuses_cid_and_sign_witness :
  0 < 1
  /\ GenID {| cid := "x"; size := 10 |} (- (1)) 2
     = GenID {| cid := ("x" ++ "-")%string; size := 10 |} 1 2.
Proof.
  split; [lia|].
  apply (GenID_confuses_cid_and_sign "x" 10 10 1 2). lia.
Defined.

(** X16: [Handle] asks the store at most one thing.  When no CID can be
    taken from the descriptor it returns the error of [GetCID] and leaves
    the world as it was; otherwise the size query of that CID is the one
    command it issues, and it neither sleeps nor logs nor leaves anything
    to the reaper. *)
Theorem Handle_asks_at_most_once (Descriptor : Type)
  (GetCID : Descriptor -> error + string) (desc : Descriptor) (w : World) :
  (exists e, GetCID desc = inl e
             /\ Handle Descriptor GetCID desc w = (inl e, w))
  \/ (exists c, GetCID desc = inr c
                /\ snd (Handle Descriptor GetCID desc w)
                   = after_command w (stat_size_cmd c)
                /\ forall ft n,
                     fst (Handle Descriptor GetCID desc w) = inr (ft, n) ->
                     cid ft = c).
Proof.
  destruct (GetCID desc) as [e|c] eqn:Hc.
  - left. exists e. split; [reflexivity|].
    apply Handle_without_cid. exact Hc.
  - right. exists c. split; [reflexivity|].
    rewrite (Handle_unfold _ _ _ _ c Hc). cbn [fst snd].
    split; [reflexivity|]. intros ft n H.
    destruct (cmd_Run _); [discriminate|].
    destruct (ParseInt _); [discriminate|].
    injection H as <- _. reflexivity.
Qed.
